(** * Crystal Collector: the game engine of [assets/js/app.js]

    A shallow embedding of the script: the three module-level counters, the
    [Game] object with its methods, the page elements the methods write to,
    and the host services they call ([Math.random], [Date.now],
    [setInterval] / [clearInterval], jQuery's delegated click binding).

    Conventions.
    - Every number the game computes with is an integer or [NaN]; integers
      are [Z] (all values stay far below 2^53, where doubles are exact).
    - In the game [Math.random()] is a rational in the unit interval and the
      arithmetic of [getRandomNumber] is exact: an idealisation, under which
      the two calls of the script, [(1, 12)] and [(19, 120)], stay in their
      ranges as they do in binary64.  What the function computes in binary64
      for any arguments is [Double.getRandomNumber].  The draws a run may use
      are a list held in the world; a loop that needs a draw when none is
      left has no result ([None]), which is how a run of the rejection loop
      that never ends shows up.
    - [Date.now()] is an argument (milliseconds) of every handler that reads
      the clock.
    - The active intervals are a finite map from the interval id to the
      deadline [then] captured by the callback's closure. *)

From stdpp Require Import gmap strings list fin_maps.
From Stdlib Require Import QArith Qround.
From Corelib Require PrimFloat.

Local Open Scope Z_scope.

(** ** JavaScript primitives used by the script *)

Module Js.

(** A number of the game: an integer or [NaN]. *)
Inductive number : Type :=
| Int (z : Z)
| NaN.

Definition add (a b : number) : number :=
  match a, b with
  | Int x, Int y => Int (x + y)
  | _, _ => NaN
  end.

(** [a === b] on numbers: [NaN] is equal to nothing. *)
Definition strict_eq (a b : number) : bool :=
  match a, b with
  | Int x, Int y => x =? y
  | _, _ => false
  end.

(** [a > b] on numbers: false as soon as one side is [NaN]. *)
Definition gt (a b : number) : bool :=
  match a, b with
  | Int x, Int y => y <? x
  | _, _ => false
  end.

(** [parseInt] of what [attr] returns.  The attribute was written from an
    integer, whose decimal text parses back to it; an element without the
    attribute gives [undefined], which parses to [NaN]. *)
Definition parseInt (a : option Z) : number :=
  match a with
  | Some z => Int z
  | None => NaN
  end.

(** [Math.floor] of an exact rational. *)
Definition floor (q : Q) : Z := Qfloor q.

(** [Math.round(d / 1000)] for an integer [d]: the nearest integer, a tie
    going up. *)
Definition round_div1000 (d : Z) : Z := (d + 500) / 1000.

(** [a % b] keeps the sign of the dividend. *)
Definition rem (a b : Z) : Z := Z.rem a b.

(** [Math.floor(a / b)] for integers. *)
Definition floor_div (a b : Z) : Z := a / b.

(** [xs.includes(x)]. *)
Definition includes (x : Z) (xs : list Z) : bool :=
  existsb (Z.eqb x) xs.

End Js.

(** ** getRandomNumber *)

(** [Math.floor(Math.random() * ((end - start) + 1) + start)], with [r] the
    value [Math.random()] returned. *)
Definition getRandomNumber (start end_ : Z) (r : Q) : Z :=
  Js.floor (r * inject_Z ((end_ - start) + 1) + inject_Z start)%Q.

Arguments getRandomNumber : simpl never.

(** The values [Math.random] may return. *)
Definition unit_interval (r : Q) : Prop := (0 <= r)%Q /\ (r < 1)%Q.

(** ** getRandomNumber as the engine computes it

    Every number of JavaScript is an IEEE binary64, and every operation of
    [getRandomNumber] rounds to the nearest one.  Here the function is on
    the binary64 numbers of the kernel, whose operations are those of the
    machine. *)

Module Double.
Import PrimFloat.
Local Open Scope float_scope.

(** [Math.floor].  Below 2^52 in size, adding 2^52 and taking it away again
    (for a negative [x], the other way round) gives the whole number nearest
    to [x], which is the floor or one above it; from 2^52 on every binary64
    is whole already.  Infinities and NaN come back as they are; the sign of
    a zero is not kept. *)
Definition floor (x : float) : float :=
  if abs x <? 0x1p52 then
    let y := if 0 <=? x then (x + 0x1p52) - 0x1p52
             else (x - 0x1p52) + 0x1p52 in
    if x <? y then y - 1 else y
  else x.

(** [Math.floor(Math.random() * ((end - start) + 1) + start)], with [r] the
    value [Math.random()] returned. *)
Definition getRandomNumber (start end_ r : float) : float :=
  floor (r * ((end_ - start) + 1) + start).


End Double.


(** ** The page *)

(** An element of the page as the script sees it: its identity as a DOM
    node, its classes and its [data-gem-value] attribute. *)
Record element : Type := Element {
  node : nat;
  classes : list string;
  data_gem_value : option Z
}.

(** [.timer__message]: the two classes the script toggles, and its text. *)
Record message : Type := Message {
  game_won : bool;
  game_lost : bool;
  text : string
}.

(** The inline [display] of [.timer__overlay]: untouched (the stylesheet
    decides), ['flex'] or ['none']. *)
Inductive display : Type :=
| FromStylesheet
| Flex
| DisplayNone.

(** The text of [.timer__time-left]: empty, the remainder seconds, or
    [minutes:seconds] with the leading zero of [displayTimeLeft]. *)
Inductive timeText : Type :=
| NoTime
| Seconds (s : Z)
| Clock (minutes : Z) (zero : bool) (s : Z).

#[global] Instance element_eq_dec : EqDecision element.
Proof. solve_decision. Defined.

(** The browser event handed to [playerClick]. *)
Record event : Type := Event { target : element }.

(** ** The state *)

Record World : Type := MkWorld {
  (* the module-level variables *)
  numberOfWins : Z;
  numberOfLosses : Z;
  currentScore : Js.number;
  (* the fields of Game *)
  targetNumber : Z;
  restartID : Z;
  restartSeconds : Z;
  uniqueGemValues : list Z;
  (* the elements of the page Game holds *)
  elTimerMessage : message;
  elTimerOverlay : display;
  elTimerTimeLeft : timeText;
  elGamesWon : option Z;
  elGamesLost : option Z;
  elTargetNumber : option Z;
  elTotalScore : option Js.number;
  elGemDisplay : list element;
  (* the host: click handlers bound on #gem-display, the active intervals
     (id to deadline), the next interval id, the next DOM node, and the
     values Math.random returns from here on *)
  clickHandlers : nat;
  intervals : gmap Z Z;
  nextInterval : Z;
  nextNode : nat;
  entropy : list Q
}.

Definition set_numberOfWins (v : Z) (w : World) : World :=
  MkWorld v (numberOfLosses w) (currentScore w) (targetNumber w)
    (restartID w) (restartSeconds w) (uniqueGemValues w) (elTimerMessage w)
    (elTimerOverlay w) (elTimerTimeLeft w) (elGamesWon w) (elGamesLost w)
    (elTargetNumber w) (elTotalScore w) (elGemDisplay w) (clickHandlers w)
    (intervals w) (nextInterval w) (nextNode w) (entropy w).

Definition set_numberOfLosses (v : Z) (w : World) : World :=
  MkWorld (numberOfWins w) v (currentScore w) (targetNumber w) (restartID w)
    (restartSeconds w) (uniqueGemValues w) (elTimerMessage w)
    (elTimerOverlay w) (elTimerTimeLeft w) (elGamesWon w) (elGamesLost w)
    (elTargetNumber w) (elTotalScore w) (elGemDisplay w) (clickHandlers w)
    (intervals w) (nextInterval w) (nextNode w) (entropy w).

Definition set_currentScore (v : Js.number) (w : World) : World :=
  MkWorld (numberOfWins w) (numberOfLosses w) v (targetNumber w)
    (restartID w) (restartSeconds w) (uniqueGemValues w) (elTimerMessage w)
    (elTimerOverlay w) (elTimerTimeLeft w) (elGamesWon w) (elGamesLost w)
    (elTargetNumber w) (elTotalScore w) (elGemDisplay w) (clickHandlers w)
    (intervals w) (nextInterval w) (nextNode w) (entropy w).

Definition set_targetNumber (v : Z) (w : World) : World :=
  MkWorld (numberOfWins w) (numberOfLosses w) (currentScore w) v
    (restartID w) (restartSeconds w) (uniqueGemValues w) (elTimerMessage w)
    (elTimerOverlay w) (elTimerTimeLeft w) (elGamesWon w) (elGamesLost w)
    (elTargetNumber w) (elTotalScore w) (elGemDisplay w) (clickHandlers w)
    (intervals w) (nextInterval w) (nextNode w) (entropy w).

Definition set_restartID (v : Z) (w : World) : World :=
  MkWorld (numberOfWins w) (numberOfLosses w) (currentScore w)
    (targetNumber w) v (restartSeconds w) (uniqueGemValues w)
    (elTimerMessage w) (elTimerOverlay w) (elTimerTimeLeft w) (elGamesWon w)
    (elGamesLost w) (elTargetNumber w) (elTotalScore w) (elGemDisplay w)
    (clickHandlers w) (intervals w) (nextInterval w) (nextNode w)
    (entropy w).

Definition set_uniqueGemValues (v : list Z) (w : World) : World :=
  MkWorld (numberOfWins w) (numberOfLosses w) (currentScore w)
    (targetNumber w) (restartID w) (restartSeconds w) v (elTimerMessage w)
    (elTimerOverlay w) (elTimerTimeLeft w) (elGamesWon w) (elGamesLost w)
    (elTargetNumber w) (elTotalScore w) (elGemDisplay w) (clickHandlers w)
    (intervals w) (nextInterval w) (nextNode w) (entropy w).

Definition set_elTimerMessage (v : message) (w : World) : World :=
  MkWorld (numberOfWins w) (numberOfLosses w) (currentScore w)
    (targetNumber w) (restartID w) (restartSeconds w) (uniqueGemValues w) v
    (elTimerOverlay w) (elTimerTimeLeft w) (elGamesWon w) (elGamesLost w)
    (elTargetNumber w) (elTotalScore w) (elGemDisplay w) (clickHandlers w)
    (intervals w) (nextInterval w) (nextNode w) (entropy w).

Definition set_elTimerOverlay (v : display) (w : World) : World :=
  MkWorld (numberOfWins w) (numberOfLosses w) (currentScore w)
    (targetNumber w) (restartID w) (restartSeconds w) (uniqueGemValues w)
    (elTimerMessage w) v (elTimerTimeLeft w) (elGamesWon w) (elGamesLost w)
    (elTargetNumber w) (elTotalScore w) (elGemDisplay w) (clickHandlers w)
    (intervals w) (nextInterval w) (nextNode w) (entropy w).

Definition set_elTimerTimeLeft (v : timeText) (w : World) : World :=
  MkWorld (numberOfWins w) (numberOfLosses w) (currentScore w)
    (targetNumber w) (restartID w) (restartSeconds w) (uniqueGemValues w)
    (elTimerMessage w) (elTimerOverlay w) v (elGamesWon w) (elGamesLost w)
    (elTargetNumber w) (elTotalScore w) (elGemDisplay w) (clickHandlers w)
    (intervals w) (nextInterval w) (nextNode w) (entropy w).

Definition set_elGamesWon (v : option Z) (w : World) : World :=
  MkWorld (numberOfWins w) (numberOfLosses w) (currentScore w)
    (targetNumber w) (restartID w) (restartSeconds w) (uniqueGemValues w)
    (elTimerMessage w) (elTimerOverlay w) (elTimerTimeLeft w) v
    (elGamesLost w) (elTargetNumber w) (elTotalScore w) (elGemDisplay w)
    (clickHandlers w) (intervals w) (nextInterval w) (nextNode w)
    (entropy w).

Definition set_elGamesLost (v : option Z) (w : World) : World :=
  MkWorld (numberOfWins w) (numberOfLosses w) (currentScore w)
    (targetNumber w) (restartID w) (restartSeconds w) (uniqueGemValues w)
    (elTimerMessage w) (elTimerOverlay w) (elTimerTimeLeft w) (elGamesWon w)
    v (elTargetNumber w) (elTotalScore w) (elGemDisplay w) (clickHandlers w)
    (intervals w) (nextInterval w) (nextNode w) (entropy w).

Definition set_elTargetNumber (v : option Z) (w : World) : World :=
  MkWorld (numberOfWins w) (numberOfLosses w) (currentScore w)
    (targetNumber w) (restartID w) (restartSeconds w) (uniqueGemValues w)
    (elTimerMessage w) (elTimerOverlay w) (elTimerTimeLeft w) (elGamesWon w)
    (elGamesLost w) v (elTotalScore w) (elGemDisplay w) (clickHandlers w)
    (intervals w) (nextInterval w) (nextNode w) (entropy w).

Definition set_elTotalScore (v : option Js.number) (w : World) : World :=
  MkWorld (numberOfWins w) (numberOfLosses w) (currentScore w)
    (targetNumber w) (restartID w) (restartSeconds w) (uniqueGemValues w)
    (elTimerMessage w) (elTimerOverlay w) (elTimerTimeLeft w) (elGamesWon w)
    (elGamesLost w) (elTargetNumber w) v (elGemDisplay w) (clickHandlers w)
    (intervals w) (nextInterval w) (nextNode w) (entropy w).

Definition set_elGemDisplay (v : list element) (w : World) : World :=
  MkWorld (numberOfWins w) (numberOfLosses w) (currentScore w)
    (targetNumber w) (restartID w) (restartSeconds w) (uniqueGemValues w)
    (elTimerMessage w) (elTimerOverlay w) (elTimerTimeLeft w) (elGamesWon w)
    (elGamesLost w) (elTargetNumber w) (elTotalScore w) v (clickHandlers w)
    (intervals w) (nextInterval w) (nextNode w) (entropy w).

Definition set_clickHandlers (v : nat) (w : World) : World :=
  MkWorld (numberOfWins w) (numberOfLosses w) (currentScore w)
    (targetNumber w) (restartID w) (restartSeconds w) (uniqueGemValues w)
    (elTimerMessage w) (elTimerOverlay w) (elTimerTimeLeft w) (elGamesWon w)
    (elGamesLost w) (elTargetNumber w) (elTotalScore w) (elGemDisplay w) v
    (intervals w) (nextInterval w) (nextNode w) (entropy w).

Definition set_intervals (v : gmap Z Z) (w : World) : World :=
  MkWorld (numberOfWins w) (numberOfLosses w) (currentScore w)
    (targetNumber w) (restartID w) (restartSeconds w) (uniqueGemValues w)
    (elTimerMessage w) (elTimerOverlay w) (elTimerTimeLeft w) (elGamesWon w)
    (elGamesLost w) (elTargetNumber w) (elTotalScore w) (elGemDisplay w)
    (clickHandlers w) v (nextInterval w) (nextNode w) (entropy w).

Definition set_nextInterval (v : Z) (w : World) : World :=
  MkWorld (numberOfWins w) (numberOfLosses w) (currentScore w)
    (targetNumber w) (restartID w) (restartSeconds w) (uniqueGemValues w)
    (elTimerMessage w) (elTimerOverlay w) (elTimerTimeLeft w) (elGamesWon w)
    (elGamesLost w) (elTargetNumber w) (elTotalScore w) (elGemDisplay w)
    (clickHandlers w) (intervals w) v (nextNode w) (entropy w).

Definition set_nextNode (v : nat) (w : World) : World :=
  MkWorld (numberOfWins w) (numberOfLosses w) (currentScore w)
    (targetNumber w) (restartID w) (restartSeconds w) (uniqueGemValues w)
    (elTimerMessage w) (elTimerOverlay w) (elTimerTimeLeft w) (elGamesWon w)
    (elGamesLost w) (elTargetNumber w) (elTotalScore w) (elGemDisplay w)
    (clickHandlers w) (intervals w) (nextInterval w) v (entropy w).

Definition set_entropy (v : list Q) (w : World) : World :=
  MkWorld (numberOfWins w) (numberOfLosses w) (currentScore w)
    (targetNumber w) (restartID w) (restartSeconds w) (uniqueGemValues w)
    (elTimerMessage w) (elTimerOverlay w) (elTimerTimeLeft w) (elGamesWon w)
    (elGamesLost w) (elTargetNumber w) (elTotalScore w) (elGemDisplay w)
    (clickHandlers w) (intervals w) (nextInterval w) (nextNode w) v.

(** [gems: ['emerald', 'ruby', 'sapphire', 'topaz']] *)
Definition gems : list string := ["emerald"; "ruby"; "sapphire"; "topaz"].

(** The state when the script has been read and [Game.start(true)] has not
    run yet; [draws] is what [Math.random] will return.  The markup of the
    page is not part of the script: its elements start empty, the message
    without the two classes, the overlay as the stylesheet has it. *)
Definition loaded (draws : list Q) : World :=
  {| numberOfWins := 0; numberOfLosses := 0; currentScore := Js.Int 0;
     targetNumber := 0; restartID := 0; restartSeconds := 5;
     uniqueGemValues := [];
     elTimerMessage := Message false false "";
     elTimerOverlay := FromStylesheet; elTimerTimeLeft := NoTime;
     elGamesWon := None; elGamesLost := None; elTargetNumber := None;
     elTotalScore := None; elGemDisplay := [];
     clickHandlers := 0; intervals := ∅; nextInterval := 1; nextNode := 0;
     entropy := draws |}.

(** [clearInterval(id)]: an id that names no active interval is ignored. *)
Definition clearInterval (id : Z) (w : World) : World :=
  set_intervals (delete id (intervals w)) w.

(** [setInterval(callback, 1000)] for the callback of [restartGame], whose
    closure holds [then_]; the fresh id is returned with the state. *)
Definition setInterval (then_ : Z) (w : World) : Z * World :=
  let id := nextInterval w in
  (id, set_nextInterval (id + 1)
         (set_intervals (<[id := then_]> (intervals w)) w)).

(** ** The methods of [Game] *)

Module Game.

(** The loop of [generateGemNumbers] on the values collected so far. *)
Fixpoint generateGemNumbers_loop (draws : list Q) (vals : list Z)
  : option (list Z * list Q) :=
  if (length vals <? 4)%nat then
    match draws with
    | [] => None
    | r :: rest =>
        let random := getRandomNumber 1 12 r in
        if negb (Js.includes random vals)
        then generateGemNumbers_loop rest (vals ++ [random])
        else generateGemNumbers_loop rest vals
    end
  else Some (vals, draws).

Definition generateGemNumbers (w : World) : option World :=
  match generateGemNumbers_loop (entropy w) (uniqueGemValues w) with
  | Some (vals, rest) => Some (set_entropy rest (set_uniqueGemValues vals w))
  | None => None
  end.

Definition generateTargetNumber (w : World) : option (Z * World) :=
  match entropy w with
  | [] => None
  | r :: rest => Some (getRandomNumber 19 120 r, set_entropy rest w)
  end.

(** One turn of the loop of [startPlay]: a new button whose
    [data-gem-value] is [uniqueGemValues.shift()], appended to
    [#gem-display].  On an empty array [shift] gives [undefined] and
    [attr] sets nothing. *)
Definition appendButton (w : World) (gem : string) : World :=
  let name := ("gem-button__" +:+ gem)%string in
  let button :=
    {| node := nextNode w;
       classes := ["gem-button"; name];
       data_gem_value := head (uniqueGemValues w) |} in
  set_elGemDisplay (elGemDisplay w ++ [button])
    (set_uniqueGemValues (tail (uniqueGemValues w))
      (set_nextNode (S (nextNode w)) w)).

Definition startPlay (w : World) : World :=
  let w := foldl appendButton w gems in
  let w := set_elGamesWon (Some (numberOfWins w)) w in
  let w := set_elGamesLost (Some (numberOfLosses w)) w in
  let w := set_elTotalScore (Some (currentScore w)) w in
  set_elTargetNumber (Some (targetNumber w)) w.

(** One more delegated click handler on [#gem-display]. *)
Definition bind (w : World) : World :=
  set_clickHandlers (S (clickHandlers w)) w.

Definition start (bind_ : bool) (w : World) : option World :=
  match generateGemNumbers w with
  | None => None
  | Some w =>
      match generateTargetNumber w with
      | None => None
      | Some (n, w) =>
          let w := startPlay (set_targetNumber n w) in
          Some (if bind_ then bind w else w)
      end
  end.

Definition resetGame (w : World) : option World :=
  let w := set_elGemDisplay [] w in
  let w := set_uniqueGemValues [] w in
  let w := set_targetNumber 0 w in
  let w := set_currentScore (Js.Int 0) w in
  let w := set_elTimerMessage
             (Message (game_won (elTimerMessage w))
                      (game_lost (elTimerMessage w)) "") w in
  let w := set_elTimerOverlay DisplayNone w in
  let w := set_elTimerTimeLeft NoTime w in
  let w := set_elTimerMessage
             (Message false false (text (elTimerMessage w))) w in
  start false w.

Definition displayTimeLeft (seconds : Z) (withMinutes : bool) (w : World)
  : World :=
  let minutes := Js.floor_div seconds 60 in
  let remainderSeconds := Js.rem seconds 60 in
  let timeLeft :=
    if withMinutes
    then Clock minutes (remainderSeconds <? 10) remainderSeconds
    else Seconds remainderSeconds in
  set_elTimerTimeLeft timeLeft w.

(** The arrow function [restartGame] hands to [setInterval], run at time
    [now]; [then_] is the deadline its closure captured. *)
Definition restartGame_callback (then_ now : Z) (w : World) : option World :=
  let secondsLeft := Js.round_div1000 (then_ - now) in
  let w :=
    if secondsLeft <? 0
    then resetGame (clearInterval (restartID w) w)
    else Some w in
  option_map (displayTimeLeft secondsLeft false) w.

Definition restartGame (seconds now : Z) (w : World) : World :=
  let w := set_elTimerOverlay Flex w in
  let w := clearInterval (restartID w) w in
  let then_ := now + seconds * 1000 in
  let w := displayTimeLeft seconds false w in
  let '(id, w) := setInterval then_ w in
  set_restartID id w.

Definition wonText : string := "Awesome, You've Won!".
Definition lostText : string := "Sorry, you lose!".

Definition playerClick (ev : event) (now : Z) (w : World) : World :=
  let el := target ev in
  let gemValue := Js.parseInt (data_gem_value el) in
  let w := set_currentScore (Js.add (currentScore w) gemValue) w in
  let w := set_elTotalScore (Some (currentScore w)) w in
  if Js.strict_eq (currentScore w) (Js.Int (targetNumber w)) then
    let w := set_numberOfWins (numberOfWins w + 1) w in
    let w := set_elGamesWon (Some (numberOfWins w)) w in
    let w := set_elTimerMessage
               (Message true (game_lost (elTimerMessage w)) wonText) w in
    restartGame (restartSeconds w) now w
  else if Js.gt (currentScore w) (Js.Int (targetNumber w)) then
    let w := set_numberOfLosses (numberOfLosses w + 1) w in
    let w := set_elGamesLost (Some (numberOfLosses w)) w in
    let w := set_elTimerMessage
               (Message (game_won (elTimerMessage w)) true lostText) w in
    restartGame (restartSeconds w) now w
  else w.

End Game.

(** ** The host's event loop *)

(** [Game.start(true)], the last statement of the script. *)
Definition boot (draws : list Q) : option World :=
  Game.start true (loaded draws).

(** What the page does to the game: the player activates the [i]-th button
    of [#gem-display], or the host runs the callback of interval [id]; both
    at a time [now]. *)
Inductive input : Type :=
| Click (i : nat) (now : Z)
| Timer (id : Z) (now : Z).

(** The delegated binding [on('click', '.gem-button', playerClick)] of
    [#gem-display]: a click on [el] runs every bound handler, with [el] as
    the event's target, when [el] is inside [#gem-display] and is a
    [.gem-button]; any other click runs none. *)
Definition click (el : element) (now : Z) (w : World) : World :=
  if bool_decide (el ∈ elGemDisplay w)
     && bool_decide ("gem-button"%string ∈ classes el)
  then Nat.iter (clickHandlers w) (Game.playerClick (Event el) now) w
  else w.

(** A cleared interval never fires. *)
Definition fire (id now : Z) (w : World) : option World :=
  match intervals w !! id with
  | Some then_ => Game.restartGame_callback then_ now w
  | None => Some w
  end.

Definition step (w : World) (i : input) : option World :=
  match i with
  | Click k now =>
      match elGemDisplay w !! k with
      | Some el => Some (click el now w)
      | None => Some w
      end
  | Timer id now => fire id now w
  end.

Fixpoint run (w : World) (inputs : list input) : option World :=
  match inputs with
  | [] => Some w
  | i :: rest =>
      match step w i with
      | Some w => run w rest
      | None => None
      end
  end.

(** ** Outcome of the round

    The script keeps no outcome variable.  The round is decided when
    [playerClick] takes one of its two branches, and what it leaves behind is
    the text of [.timer__message], which [resetGame] empties. *)
Inductive Outcome : Type :=
| InProgress
| Won
| Lost.

Definition outcome (w : World) : Outcome :=
  let m := text (elTimerMessage w) in
  if String.eqb m Game.wonText then Won
  else if String.eqb m Game.lostText then Lost
  else InProgress.

(** ** Notions the properties are stated with *)

(** The values a gem may carry. *)
Definition gemRange (v : Z) : Prop := 1 <= v <= 12.

(** The number of different gem values a list of draws yields. *)
Definition distinctGems (draws : list Q) : nat :=
  length (remove_dups (map (getRandomNumber 1 12) draws)).

(** The pieces of [playerClick]: the first two statements after the value is
    read, and the bodies of its two branches before [restartGame]. *)
Definition scored (n : Js.number) (w : World) : World :=
  set_elTotalScore (Some n) (set_currentScore n w).

Definition wonRound (w : World) : World :=
  set_elTimerMessage
    (Message true (game_lost (elTimerMessage w)) Game.wonText)
    (set_elGamesWon (Some (numberOfWins w + 1))
      (set_numberOfWins (numberOfWins w + 1) w)).

Definition lostRound (w : World) : World :=
  set_elTimerMessage
    (Message (game_won (elTimerMessage w)) true Game.lostText)
    (set_elGamesLost (Some (numberOfLosses w + 1))
      (set_numberOfLosses (numberOfLosses w + 1) w)).

(** What [resetGame] has done when it reaches [this.start()]. *)
Definition cleared (w : World) : World :=
  MkWorld (numberOfWins w) (numberOfLosses w) (Js.Int 0) 0 (restartID w)
    (restartSeconds w) [] (Message false false "") DisplayNone NoTime
    (elGamesWon w) (elGamesLost w) (elTargetNumber w) (elTotalScore w) []
    (clickHandlers w) (intervals w) (nextInterval w) (nextNode w) (entropy w).

(** What [start] returns: the round with its four new buttons (carrying the
    first four of [vals]), its target [n] and the draws left. *)
Definition gemButton (n : nat) (gem : string) (v : option Z) : element :=
  Element n ["gem-button"; ("gem-button__" +:+ gem)]%string v.

Definition started (b : bool) (vals : list Z) (n : Z) (rest : list Q)
    (w : World) : World :=
  MkWorld (numberOfWins w) (numberOfLosses w) (currentScore w) n
    (restartID w) (restartSeconds w) (tail (tail (tail (tail vals))))
    (elTimerMessage w) (elTimerOverlay w) (elTimerTimeLeft w)
    (Some (numberOfWins w)) (Some (numberOfLosses w)) (Some n)
    (Some (currentScore w))
    ((((elGemDisplay w
        ++ [gemButton (nextNode w) "emerald" (head vals)])
        ++ [gemButton (1 + nextNode w) "ruby" (head (tail vals))])
        ++ [gemButton (2 + nextNode w) "sapphire" (head (tail (tail vals)))])
        ++ [gemButton (3 + nextNode w) "topaz"
              (head (tail (tail (tail vals))))])
    (if b then S (clickHandlers w) else clickHandlers w)
    (intervals w) (nextInterval w) (4 + nextNode w)%nat rest.

(** A countdown begun at [now]: the interval [restartID] names is active
    with its deadline [restartSeconds] later, the overlay is shown and the
    clock shows the full duration. *)
Definition countingDown (now : Z) (w : World) : Prop :=
  intervals w !! restartID w = Some (now + restartSeconds w * 1000) ∧
  elTimerOverlay w = Flex ∧
  elTimerTimeLeft w = Seconds (Js.rem (restartSeconds w) 60).

(** The states of a session: what [Game.start(true)] and then any clicks on
    gems and any firings of intervals lead to, the random values being in
    the unit interval. *)
Definition reachable (w : World) : Prop :=
  ∃ draws inputs w0,
    Forall unit_interval draws ∧ boot draws = Some w0 ∧
    run w0 inputs = Some w.

(** What holds of every state of a session. *)
Record good (w : World) : Prop := Good {
  good_handlers : clickHandlers w = 1%nat;
  good_seconds : restartSeconds w = 5;
  good_unique : uniqueGemValues w = [];
  good_target : 19 <= targetNumber w <= 120;
  good_gems :
    ∃ vals, map data_gem_value (elGemDisplay w) = map Some vals ∧
            length vals = 4%nat ∧ NoDup vals ∧ Forall gemRange vals;
  good_buttons :
    Forall (λ el, "gem-button"%string ∈ classes el) (elGemDisplay w);
  good_entropy : Forall unit_interval (entropy w);
  good_tally : 0 <= numberOfWins w ∧ 0 <= numberOfLosses w;
  good_round :
    ∃ s, currentScore w = Js.Int s ∧ 0 <= s ∧
      match outcome w with
      | InProgress => s < targetNumber w ∧ intervals w = ∅
      | Won =>
          s = targetNumber w ∧ ∃ then_, intervals w = {[restartID w := then_]}
      | Lost =>
          targetNumber w < s ∧ ∃ then_, intervals w = {[restartID w := then_]}
      end
}.

(** The interval [id] firing on time: once every 1000 ms after [start],
    [n] times. *)
Definition ticks (id start : Z) (n : nat) : list input :=
  map (λ k, Timer id (start + 1000 * Z.of_nat k)) (seq 1 n).

Definition outcome_eqb (a b : Outcome) : bool :=
  match a, b with
  | InProgress, InProgress | Won, Won | Lost, Lost => true
  | _, _ => false
  end.


(** The rounds of a run that were decided as [o]: the inputs that took a
    round in progress to the outcome [o]. *)
Fixpoint decided (o : Outcome) (w : World) (inputs : list input) : nat :=
  match inputs with
  | [] => 0%nat
  | i :: rest =>
      match step w i with
      | None => 0%nat
      | Some w' =>
          ((if outcome_eqb (outcome w) InProgress && outcome_eqb (outcome w') o
            then 1 else 0) + decided o w' rest)%nat
      end
  end.


(** ** A sample session

    Three rounds' worth of random values: gems 12, 7, 1, 4 and target 19;
    then gems 2, 6, 8, 10 (one value drawn twice) and target 70; then gems
    1, 2, 3, 4 and target 70. *)
Definition sample_draws : list Q :=
  [11#12; 1#2; 0; 1#4; 0;
   1#12; 1#12; 5#12; 7#12; 9#12; 1#2;
   0; 1#12; 1#6; 1#4; 1#2]%Q.

Definition after (w : World) (inputs : list input) : World :=
  default w (run w inputs).

(** The first round, just started. *)
Definition sample_round : World := default (loaded []) (boot sample_draws).

(** The first round won at time 2000: 12 then 7. *)
Definition sample_won : World :=
  after sample_round [Click 0 1000; Click 1 2000].

(** The first round lost at time 2000: 12 then 12. *)
Definition sample_lost : World :=
  after sample_round [Click 0 1000; Click 0 2000].

(** The second round, started by the countdown of the first. *)
Definition sample_second : World :=
  after sample_won (ticks 1 2000 6).

(** Two rounds played to the end: the first won (12 then 7 make 19), the
    second lost (nine times 8 pass 70), each followed by its countdown. *)
Definition sample_session : list input :=
  [Click 0 1000; Click 1 2000] ++ ticks 1 2000 6 ++
  repeat (Click 2 9000) 9 ++ ticks 2 9000 6.


(** The button worth 7 of the first round. *)
Definition sample_gem7 : element :=
  Element 1 ["gem-button"; "gem-button__ruby"]%string (Some 7).

(** An element of the page that is no gem. *)
Definition sample_heading : element := Element 99 [] None.

(** ** Notions for the further properties *)

(** The page agrees with the variables, the overlay and the classes of the
    message with the outcome, and the buttons of [#gem-display] are nodes
    that have been created. *)
Record tidy (w : World) : Prop := Tidy {
  tidy_won : elGamesWon w = Some (numberOfWins w);
  tidy_lost : elGamesLost w = Some (numberOfLosses w);
  tidy_score : elTotalScore w = Some (currentScore w);
  tidy_target : elTargetNumber w = Some (targetNumber w);
  tidy_overlay :
    match outcome w with
    | InProgress => elTimerOverlay w ≠ Flex
    | _ => elTimerOverlay w = Flex
    end;
  tidy_classes :
    match outcome w with
    | InProgress =>
        game_won (elTimerMessage w) = false ∧
        game_lost (elTimerMessage w) = false
    | Won =>
        game_won (elTimerMessage w) = true ∧
        game_lost (elTimerMessage w) = false
    | Lost => game_lost (elTimerMessage w) = true
    end;
  tidy_nodes : Forall (λ el, (node el < nextNode w)%nat) (elGemDisplay w)
}.

(** An input that is a click, and one that is a click on one of the four
    buttons. *)
Definition isClick (i : input) : Prop :=
  match i with
  | Click _ _ => True
  | Timer _ _ => False
  end.

Definition isGemClick (i : input) : Prop :=
  match i with
  | Click k _ => (k < 4)%nat
  | Timer _ _ => False
  end.

(** The button worth 4 of the first round of the sample session. *)
Definition sample_gem4 : element :=
  Element 3 ["gem-button"; "gem-button__topaz"]%string (Some 4).

(** A round that cannot be won: the gems 2, 4, 6, 8 and the target 19. *)
Definition even_draws : list Q := [1#12; 1#4; 5#12; 7#12; 0]%Q.

Definition even_round : World := default (loaded []) (boot even_draws).

(** A decidable statement about concrete data, refuted by evaluation. *)
Ltac refute_by_computation :=
  lazymatch goal with
  | |- ¬ ?P => refine (bool_decide_eq_false_1 P _); vm_compute; reflexivity
  end.

(** * Properties *)

(** ** Random numbers *)

(** [r * n + start] is not below [start], so neither is its floor. *)
Lemma getRandomNumber_lower (start end_ : Z) (r : Q) :
  start <= end_ → (0 <= r)%Q → start <= getRandomNumber start end_ r.
Proof.
  intros Hse H0. unfold getRandomNumber, Js.floor.
  assert (Hn : (0 < inject_Z ((end_ - start) + 1))%Q).
  { change 0%Q with (inject_Z 0). rewrite <- Zlt_Qlt. lia. }
  rewrite <- (Qfloor_Z start) at 1. apply Qfloor_resp_le.
  rewrite <- (Qplus_0_l (inject_Z start)) at 1.
  apply Qplus_le_l. apply Qmult_le_0_compat; [done | by apply Qlt_le_weak].
Qed.

(** [r * n + start] is below [start + n = end + 1], so its floor is at most
    [end]. *)
Lemma getRandomNumber_upper (start end_ : Z) (r : Q) :
  start <= end_ → (r < 1)%Q → getRandomNumber start end_ r <= end_.
Proof.
  intros Hse H1. unfold getRandomNumber, Js.floor.
  set (n := (end_ - start) + 1).
  assert (Hn : (0 < inject_Z n)%Q).
  { change 0%Q with (inject_Z 0). rewrite <- Zlt_Qlt. lia. }
  assert (Hlt : (inject_Z (Qfloor (r * inject_Z n + inject_Z start))
                 < inject_Z (end_ + 1))%Q).
  { eapply Qle_lt_trans; [apply Qfloor_le |].
    replace (end_ + 1) with (n + start) by lia.
    rewrite inject_Z_plus. apply Qplus_lt_l.
    rewrite <- (Qmult_1_l (inject_Z n)) at 2.
    by apply Qmult_lt_r. }
  rewrite <- Zlt_Qlt in Hlt. lia.
Qed.

(** In exact arithmetic the result lies between [start] and [end], both
    included. *)
Lemma getRandomNumber_between (start end_ : Z) (r : Q) :
  start <= end_ → unit_interval r →
  start <= getRandomNumber start end_ r <= end_.
Proof.
  intros Hse [H0 H1].
  split; [by apply getRandomNumber_lower | by apply getRandomNumber_upper].
Qed.

Section Binary64.
Import PrimFloat.
Local Open Scope float_scope.


End Binary64.

Lemma sample_draws_unit : Forall unit_interval sample_draws.
Proof.
  unfold sample_draws.
  repeat constructor; (unfold Qle || unfold Qlt); simpl; lia.
Qed.

(** ** The rejection loop *)

Lemma includes_elem_of (x : Z) (xs : list Z) :
  Js.includes x xs = true ↔ x ∈ xs.
Proof.
  unfold Js.includes. rewrite existsb_exists. split.
  - intros (y & Hy & Heq). apply Z.eqb_eq in Heq. subst.
    by apply list_elem_of_In.
  - intros Hx. exists x. split; [by apply list_elem_of_In | apply Z.eqb_refl].
Qed.

(** The draws the loop leaves are the end of those it was given. *)
Lemma loop_rest (draws : list Q) :
  ∀ vals vals' rest,
    Game.generateGemNumbers_loop draws vals = Some (vals', rest) →
    rest `suffix_of` draws.
Proof.
  induction draws as [|r draws IH]; intros vals vals' rest; simpl.
  - destruct (length vals <? 4)%nat; [done |]. by intros [= <- <-].
  - destruct (length vals <? 4)%nat; [| by intros [= <- <-]].
    destruct (Js.includes _ vals); simpl; intros Hloop;
      apply IH in Hloop; by apply suffix_cons_r.
Qed.

Lemma unit_suffix (rest draws : list Q) :
  rest `suffix_of` draws → Forall unit_interval draws →
  Forall unit_interval rest.
Proof. intros [pre ->] H. by apply Forall_app in H as [_ ?]. Qed.

(** What the loop returns: four values, all different, all gem values,
    each one kept from before or drawn. *)
Lemma loop_sound (draws : list Q) :
  ∀ vals vals' rest,
    Forall unit_interval draws →
    (length vals ≤ 4)%nat → NoDup vals → Forall gemRange vals →
    Game.generateGemNumbers_loop draws vals = Some (vals', rest) →
    length vals' = 4%nat ∧ NoDup vals' ∧ Forall gemRange vals' ∧
    vals' ⊆ vals ++ map (getRandomNumber 1 12) draws.
Proof.
  induction draws as [|r draws IH]; intros vals vals' rest Hd Hlen Hnd Hr;
    simpl.
  - destruct (length vals <? 4)%nat eqn:Hlt; [done |].
    apply Nat.ltb_ge in Hlt. intros [= <- <-].
    rewrite app_nil_r. repeat split; [lia | done..].
  - destruct (length vals <? 4)%nat eqn:Hlt.
    + apply Nat.ltb_lt in Hlt. inversion_clear Hd as [|? ? Hu Hd'].
      destruct (Js.includes (getRandomNumber 1 12 r) vals) eqn:Hin; simpl;
        intros Hloop.
      * apply IH in Hloop as (? & ? & ? & Hsub); [| done..].
        repeat split; [done.. |].
        intros x Hx. apply Hsub in Hx. rewrite !elem_of_app in *.
        rewrite elem_of_cons. tauto.
      * apply IH in Hloop as (? & ? & ? & Hsub); [| done | | |].
        -- repeat split; [done.. |].
           intros x Hx. apply Hsub in Hx. rewrite !elem_of_app in *.
           rewrite list_elem_of_singleton in Hx.
           rewrite elem_of_cons. tauto.
        -- rewrite length_app. simpl. lia.
        -- apply NoDup_app. split; [done |]. split; [| apply NoDup_singleton].
           intros x Hx Hx'. apply list_elem_of_singleton in Hx'. subst x.
           apply includes_elem_of in Hx. congruence.
        -- apply Forall_app. split; [done |]. apply Forall_singleton.
           apply getRandomNumber_between; [lia | done].
    + apply Nat.ltb_ge in Hlt. intros [= <- <-].
      repeat split; [lia | done.. |].
      intros x Hx. apply elem_of_app. by left.
Qed.

Lemma size_list_to_set_le (l : list Z) :
  (size (list_to_set l : gset Z) ≤ length l)%nat.
Proof.
  induction l as [|x l IH]; simpl; [done |].
  rewrite size_union_alt, size_singleton.
  assert (size (list_to_set l ∖ {[x]} : gset Z)
          ≤ size (list_to_set l : gset Z))%nat; [| lia].
  apply subseteq_size. intros y Hy. by apply elem_of_difference in Hy as [? _].
Qed.

Lemma distinct_size (l : list Z) :
  length (remove_dups l) = size (list_to_set l : gset Z).
Proof.
  rewrite <- (size_list_to_set (C := gset Z)) by apply NoDup_remove_dups.
  f_equal. apply set_eq. intros x.
  by rewrite !elem_of_list_to_set, elem_of_remove_dups.
Qed.

(** The loop ends as soon as four different values have been seen. *)
Lemma loop_returns (draws : list Q) :
  ∀ vals,
    (4 ≤ size (list_to_set
                 (vals ++ map (getRandomNumber 1 12) draws) : gset Z))%nat →
    is_Some (Game.generateGemNumbers_loop draws vals).
Proof.
  induction draws as [|r draws IH]; intros vals Hsz; simpl.
  - destruct (length vals <? 4)%nat eqn:Hlt; [| by eexists].
    apply Nat.ltb_lt in Hlt. rewrite app_nil_r in Hsz.
    pose proof (size_list_to_set_le vals). lia.
  - destruct (length vals <? 4)%nat eqn:Hlt; [| by eexists].
    destruct (Js.includes (getRandomNumber 1 12 r) vals) eqn:Hin; simpl;
      apply IH.
    + apply includes_elem_of in Hin.
      replace (list_to_set (vals ++ map (getRandomNumber 1 12) draws) : gset Z)
        with (list_to_set
                (vals ++ map (getRandomNumber 1 12) (r :: draws)) : gset Z);
        [done |].
      apply set_eq. intros x. rewrite !elem_of_list_to_set. simpl.
      rewrite !elem_of_app, elem_of_cons. split; [| tauto].
      intros [?|[->|?]]; tauto.
    + by rewrite <- app_assoc.
Qed.

(** ** Starting a round *)

Lemma start_eq (b : bool) (w : World) :
  Game.start b w =
    match Game.generateGemNumbers_loop (entropy w) (uniqueGemValues w) with
    | Some (vals, r :: rest) =>
        Some (started b vals (getRandomNumber 19 120 r) rest w)
    | _ => None
    end.
Proof.
  unfold Game.start, Game.generateGemNumbers, Game.generateTargetNumber.
  destruct (Game.generateGemNumbers_loop _ _) as [[vals [|r rest]]|];
    [reflexivity | | reflexivity].
  destruct b; reflexivity.
Qed.

Lemma start_Some (b : bool) (w w' : World) :
  Game.start b w = Some w' →
  ∃ vals r rest,
    Game.generateGemNumbers_loop (entropy w) (uniqueGemValues w)
      = Some (vals, r :: rest) ∧
    w' = started b vals (getRandomNumber 19 120 r) rest w.
Proof.
  rewrite start_eq.
  destruct (Game.generateGemNumbers_loop _ _) as [[vals [|r rest]]|];
    [done | | done].
  intros [= <-]. by exists vals, r, rest.
Qed.

Lemma resetGame_eq (w : World) :
  Game.resetGame w = Game.start false (cleared w).
Proof. reflexivity. Qed.

(** C5: at the start of a round the rejection loop, whenever the random
    values keep it from running forever (four different gem values are
    drawn at some point, and only then), leaves exactly four values, no two
    the same, each from 1 to 12; these are the values the four new gems
    carry. *)
Theorem generateGemNumbers_four_distinct (w : World) :
  uniqueGemValues w = [] → Forall unit_interval (entropy w) →
  (is_Some (Game.generateGemNumbers w) ↔ (4 ≤ distinctGems (entropy w))%nat) ∧
  (∀ w', Game.generateGemNumbers w = Some w' →
     length (uniqueGemValues w') = 4%nat ∧ NoDup (uniqueGemValues w') ∧
     Forall gemRange (uniqueGemValues w')) ∧
  (∀ b w', Game.start b w = Some w' →
     ∃ vals,
       map data_gem_value (elGemDisplay w') =
         map data_gem_value (elGemDisplay w) ++ map Some vals ∧
       length vals = 4%nat ∧ NoDup vals ∧ Forall gemRange vals).
Proof.
  intros Hu Hd.
  assert (Hsound : ∀ vals rest,
    Game.generateGemNumbers_loop (entropy w) [] = Some (vals, rest) →
    length vals = 4%nat ∧ NoDup vals ∧ Forall gemRange vals ∧
    vals ⊆ map (getRandomNumber 1 12) (entropy w)).
  { intros vals rest Hloop.
    apply loop_sound in Hloop; [done | done | simpl; lia | constructor..]. }
  split; [| split].
  - unfold Game.generateGemNumbers, distinctGems. rewrite Hu, distinct_size.
    split.
    + destruct (Game.generateGemNumbers_loop _ _) as [[vals rest]|] eqn:Hloop;
        [intros _ | by intros [? [=]]].
      destruct (Hsound _ _ eq_refl) as (Hlen & Hnd & _ & Hsub).
      rewrite <- Hlen, <- (size_list_to_set (C := gset Z)) by done.
      apply subseteq_size. intros x. rewrite !elem_of_list_to_set. apply Hsub.
    + intros Hsz. apply (loop_returns _ []) in Hsz as [[vals rest] ->].
      by eexists.
  - unfold Game.generateGemNumbers. rewrite Hu. intros w'.
    destruct (Game.generateGemNumbers_loop _ _) as [[vals rest]|] eqn:Hloop;
      [| done].
    intros [= <-]. by destruct (Hsound _ _ eq_refl) as (? & ? & ? & _).
  - intros b w' Hs. apply start_Some in Hs as (vals & r & rest & Hloop & ->).
    rewrite Hu in Hloop. apply Hsound in Hloop as (Hlen & Hnd & Hr & _).
    exists vals. split; [| done].
    destruct vals as [|v1 [|v2 [|v3 [|v4 [|]]]]]; try done.
    simpl. by rewrite !map_app, <- !app_assoc.
Qed.

Lemma generateGemNumbers_four_distinct_witness :
  is_Some (Game.generateGemNumbers (loaded sample_draws)) ↔
  (4 ≤ distinctGems sample_draws)%nat.
Proof.
  apply (generateGemNumbers_four_distinct (loaded sample_draws));
    [reflexivity | exact sample_draws_unit].
Defined.

(** C6: the target of every round that is started lies from 19 to 120,
    both included; the target is generated whenever a random value is
    left. *)
Theorem targetNumber_range (w : World) :
  Forall unit_interval (entropy w) →
  (is_Some (Game.generateTargetNumber w) ↔ entropy w ≠ []) ∧
  (∀ n w', Game.generateTargetNumber w = Some (n, w') → 19 <= n <= 120) ∧
  (∀ b w', Game.start b w = Some w' →
     19 <= targetNumber w' <= 120 ∧
     elTargetNumber w' = Some (targetNumber w')).
Proof.
  intros Hd. split; [| split].
  - unfold Game.generateTargetNumber. destruct (entropy w).
    + split; [by intros [? [=]] | done].
    + split; [done | by eexists].
  - unfold Game.generateTargetNumber. intros n w'.
    destruct (entropy w) as [|r rest]; [done |].
    intros [= <- <-]. inversion_clear Hd.
    apply getRandomNumber_between; [lia | done].
  - intros b w' Hs. apply start_Some in Hs as (vals & r & rest & Hloop & ->).
    apply loop_rest in Hloop. apply unit_suffix in Hloop; [| done].
    inversion_clear Hloop as [|? ? Hr _]. simpl. split; [| done].
    apply getRandomNumber_between; [lia | done].
Qed.

Lemma targetNumber_range_witness :
  19 <= targetNumber sample_round <= 120.
Proof.
  destruct (targetNumber_range (loaded sample_draws) sample_draws_unit)
    as (_ & _ & Hstart).
  apply (Hstart true sample_round). vm_compute. reflexivity.
Defined.

(** ** A click on a gem *)

Lemma playerClick_eq (ev : event) (now : Z) (w : World) :
  Game.playerClick ev now w =
    let n := Js.add (currentScore w) (Js.parseInt (data_gem_value (target ev))) in
    if Js.strict_eq n (Js.Int (targetNumber w))
    then Game.restartGame (restartSeconds w) now (wonRound (scored n w))
    else if Js.gt n (Js.Int (targetNumber w))
    then Game.restartGame (restartSeconds w) now (lostRound (scored n w))
    else scored n w.
Proof. reflexivity. Qed.

Lemma restartGame_intervals (seconds now : Z) (w : World) :
  intervals (Game.restartGame seconds now w) =
    <[nextInterval w := now + seconds * 1000]>
      (delete (restartID w) (intervals w)).
Proof. reflexivity. Qed.

Lemma outcome_won (w : World) :
  text (elTimerMessage w) = Game.wonText → outcome w = Won.
Proof. unfold outcome. by intros ->. Qed.

Lemma outcome_lost (w : World) :
  text (elTimerMessage w) = Game.lostText → outcome w = Lost.
Proof. unfold outcome. by intros ->. Qed.

Lemma outcome_message (w w' : World) :
  elTimerMessage w' = elTimerMessage w → outcome w' = outcome w.
Proof. unfold outcome. by intros ->. Qed.

(** C4: a click on a gem of a round in progress adds the gem's value to the
    score, and then: a score equal to the target wins the round (one more
    win, countdown begun); otherwise a score above the target loses it (one
    more loss, countdown begun); otherwise the round stays in progress, the
    tallies and the timers as they were.  (The element need not even be a gem
    of the round: any element carrying a value is treated so.) *)
Theorem playerClick_transition (w : World) (el : element) (now s v : Z) :
  outcome w = InProgress → currentScore w = Js.Int s →
  data_gem_value el = Some v →
  let w' := Game.playerClick (Event el) now w in
  currentScore w' = Js.Int (s + v) ∧
  elTotalScore w' = Some (Js.Int (s + v)) ∧
  (s + v = targetNumber w →
     outcome w' = Won ∧ numberOfWins w' = numberOfWins w + 1 ∧
     numberOfLosses w' = numberOfLosses w ∧ countingDown now w') ∧
  (targetNumber w < s + v →
     outcome w' = Lost ∧ numberOfWins w' = numberOfWins w ∧
     numberOfLosses w' = numberOfLosses w + 1 ∧ countingDown now w') ∧
  (s + v < targetNumber w →
     outcome w' = InProgress ∧ numberOfWins w' = numberOfWins w ∧
     numberOfLosses w' = numberOfLosses w ∧ intervals w' = intervals w ∧
     restartID w' = restartID w ∧ elTimerOverlay w' = elTimerOverlay w ∧
     elTimerTimeLeft w' = elTimerTimeLeft w).
Proof.
  intros Ho Hs Hv w'. subst w'. rewrite playerClick_eq. simpl.
  rewrite Hs, Hv. simpl.
  destruct (Z.eqb_spec (s + v) (targetNumber w)) as [Heq|Hne].
  - repeat split; try reflexivity; try lia.
    unfold countingDown. simpl. by rewrite lookup_insert_eq.
  - destruct (Z.ltb_spec (targetNumber w) (s + v)) as [Hlt|Hge].
    + repeat split; try reflexivity; try lia.
      unfold countingDown. simpl. by rewrite lookup_insert_eq.
    + repeat split; try reflexivity; try lia. exact Ho.
Qed.

Lemma playerClick_transition_witness :
  currentScore (Game.playerClick (Event sample_gem7) 1000 sample_round)
    = Js.Int (0 + 7).
Proof.
  apply (playerClick_transition sample_round sample_gem7 1000 0 7);
    vm_compute; reflexivity.
Defined.

(** ** What every state of a session satisfies *)

Lemma start_good (b : bool) (w w' : World) :
  Game.start b w = Some w' →
  uniqueGemValues w = [] → elGemDisplay w = [] →
  Forall unit_interval (entropy w) →
  restartSeconds w = 5 → 0 <= numberOfWins w → 0 <= numberOfLosses w →
  currentScore w = Js.Int 0 → text (elTimerMessage w) = ""%string →
  intervals w = ∅ →
  (if b then clickHandlers w = 0%nat else clickHandlers w = 1%nat) →
  good w'.
Proof.
  intros Hs Hu Hd He Hsec Hw Hl Hsc Hm Hi Hh.
  apply start_Some in Hs as (vals & r & rest & Hloop & ->).
  pose proof (loop_rest _ _ _ _ Hloop) as Hrest.
  apply unit_suffix in Hrest; [| done].
  rewrite Hu in Hloop.
  apply loop_sound in Hloop as (Hlen & Hnd & Hr & _);
    [| done | simpl; lia | constructor | constructor].
  inversion_clear Hrest as [|? ? Hur Hrest'].
  destruct vals as [|v1 [|v2 [|v3 [|v4 [|]]]]]; try done.
  assert (19 <= getRandomNumber 19 120 r <= 120)
    by (by apply getRandomNumber_between).
  split; simpl; try done.
  - destruct b; lia.
  - exists [v1; v2; v3; v4]. by rewrite Hd.
  - rewrite Hd. simpl. unfold gemButton.
    repeat constructor; simpl; apply elem_of_cons; by left.
  - exists 0. unfold outcome. simpl. rewrite Hm. simpl.
    repeat split; [done | lia | lia | done].
Qed.

Lemma good_cleared (w : World) :
  good w → delete (restartID w) (intervals w) = ∅.
Proof.
  intros [_ _ _ _ _ _ _ _ (s & _ & _ & Hr)].
  destruct (outcome w).
  - destruct Hr as [_ ->]. apply delete_empty.
  - destruct Hr as [_ [t ->]]. apply delete_singleton_eq.
  - destruct Hr as [_ [t ->]]. apply delete_singleton_eq.
Qed.

Lemma good_gem (w : World) (el : element) :
  good w → el ∈ elGemDisplay w →
  "gem-button"%string ∈ classes el ∧
  ∃ v, data_gem_value el = Some v ∧ gemRange v.
Proof.
  intros Hg Hel. split.
  - pose proof (good_buttons w Hg) as Hb. rewrite Forall_forall in Hb.
    by apply Hb.
  - destruct (good_gems w Hg) as (vals & Hmap & _ & _ & Hr).
    assert (Hin : data_gem_value el ∈ map Some vals).
    { rewrite <- Hmap. by apply list_elem_of_fmap_2. }
    apply list_elem_of_fmap in Hin as (v & -> & Hv).
    exists v. split; [done |]. rewrite Forall_forall in Hr. by apply Hr.
Qed.

Lemma playerClick_good (w : World) (el : element) (now : Z) :
  good w → el ∈ elGemDisplay w → good (Game.playerClick (Event el) now w).
Proof.
  intros Hg Hel.
  destruct (good_gem w el Hg Hel) as [_ (v & Hv & Hrange)].
  pose proof (good_cleared w Hg) as Hclr.
  destruct Hg as [Hh Hsec Hu Ht Hgems Hb He [Hw Hl] (s & Hs & Hs0 & Hround)].
  unfold gemRange in Hrange.
  rewrite playerClick_eq. simpl. rewrite Hs, Hv. simpl.
  destruct (Z.eqb_spec (s + v) (targetNumber w)) as [Heq|Hne].
  - split; simpl; try done; [lia |].
    exists (s + v). split; [done |]. split; [lia |].
    split; [done |]. eexists. by rewrite Hclr.
  - destruct (Z.ltb_spec (targetNumber w) (s + v)) as [Hlt|Hge].
    + split; simpl; try done; [lia |].
      exists (s + v). split; [done |]. split; [lia |].
      split; [done |]. eexists. by rewrite Hclr.
    + split; simpl; try done.
      exists (s + v). split; [done |]. split; [lia |].
      change (outcome (scored (Js.Int (s + v)) w)) with (outcome w).
      destruct (outcome w); [split; [lia | tauto] | lia | lia].
Qed.

Lemma resetGame_good (w w' : World) :
  good w → Game.resetGame (clearInterval (restartID w) w) = Some w' → good w'.
Proof.
  intros Hg Hr. pose proof (good_cleared w Hg) as Hclr.
  destruct Hg as [Hh Hsec Hu Ht Hgems Hb He [Hw Hl] _].
  rewrite resetGame_eq in Hr.
  eapply start_good in Hr; simpl; done.
Qed.

Lemma displayTimeLeft_good (seconds : Z) (m : bool) (w : World) :
  good w → good (Game.displayTimeLeft seconds m w).
Proof. intros [? ? ? ? ? ? ? ? ?]. by split. Qed.

Lemma callback_good (w w' : World) (then_ now : Z) :
  good w → Game.restartGame_callback then_ now w = Some w' → good w'.
Proof.
  intros Hg. unfold Game.restartGame_callback.
  destruct (Js.round_div1000 (then_ - now) <? 0).
  - destruct (Game.resetGame _) as [w1|] eqn:Hr; [| done].
    intros [= <-]. apply displayTimeLeft_good. by eapply resetGame_good.
  - intros [= <-]. by apply displayTimeLeft_good.
Qed.

Lemma click_gem (w : World) (el : element) (now : Z) :
  good w → el ∈ elGemDisplay w →
  click el now w = Game.playerClick (Event el) now w.
Proof.
  intros Hg Hel. destruct (good_gem w el Hg Hel) as [Hc _].
  unfold click. rewrite !bool_decide_eq_true_2 by done.
  by rewrite (good_handlers w Hg).
Qed.

Lemma step_good (w w' : World) (i : input) :
  good w → step w i = Some w' → good w'.
Proof.
  intros Hg. destruct i as [k now|id now]; simpl.
  - destruct (elGemDisplay w !! k) as [el|] eqn:Hk; [| by intros [= <-]].
    intros [= <-]. apply list_elem_of_lookup_2 in Hk.
    rewrite click_gem by done. by apply playerClick_good.
  - unfold fire. destruct (intervals w !! id); [| by intros [= <-]].
    by apply callback_good.
Qed.

Lemma run_good (inputs : list input) :
  ∀ w w', good w → run w inputs = Some w' → good w'.
Proof.
  induction inputs as [|i inputs IH]; intros w w' Hg; simpl.
  - by intros [= <-].
  - destruct (step w i) as [w1|] eqn:Hs; [| done].
    apply IH. by eapply step_good.
Qed.

Lemma boot_good (draws : list Q) (w : World) :
  Forall unit_interval draws → boot draws = Some w → good w.
Proof.
  intros Hd Hb. unfold boot in Hb. eapply start_good in Hb; done.
Qed.

Lemma reachable_good (w : World) : reachable w → good w.
Proof.
  intros (draws & inputs & w0 & Hd & Hb & Hr).
  eapply run_good; [| done]. by eapply boot_good.
Qed.

Lemma sample_round_reachable : reachable sample_round.
Proof.
  exists sample_draws, [], sample_round.
  split; [exact sample_draws_unit |]. split; vm_compute; reflexivity.
Qed.

Lemma sample_won_reachable : reachable sample_won.
Proof.
  exists sample_draws, [Click 0 1000; Click 1 2000], sample_round.
  split; [exact sample_draws_unit |]. split; vm_compute; reflexivity.
Qed.

(** The two paths of the sample round: target 19 and gems 12, 7, 1, 4.
    Choosing 12 then 7 wins with the score 19; choosing 12 twice loses with
    the score 24. *)
Example win_path :
  targetNumber sample_round = 19 ∧
  map data_gem_value (elGemDisplay sample_round)
    = [Some 12; Some 7; Some 1; Some 4] ∧
  currentScore sample_won = Js.Int 19 ∧ outcome sample_won = Won ∧
  numberOfWins sample_won = 1 ∧ numberOfLosses sample_won = 0.
Proof. vm_compute. repeat split; reflexivity. Qed.

Example lose_path :
  currentScore sample_lost = Js.Int 24 ∧ outcome sample_lost = Lost ∧
  numberOfWins sample_lost = 0 ∧ numberOfLosses sample_lost = 1.
Proof. vm_compute. repeat split; reflexivity. Qed.

(** ** Clicks that the specification wants ignored *)

(** C1, as the code has it: [playerClick] keeps no record that the round is
    decided and has no guard.  In a session, a click on a gem that reaches
    it after the outcome and before the next round is scored like any
    other: the gem's value is added to the score, the wins stay, one more
    loss is counted, the message becomes the losing one (a won round turns
    into a lost one), and the countdown starts afresh as the only timer. *)
Theorem click_after_outcome (w : World) (el : element) (now : Z) :
  reachable w → outcome w ≠ InProgress → el ∈ elGemDisplay w →
  let w' := Game.playerClick (Event el) now w in
  ∃ s v,
    currentScore w = Js.Int s ∧ data_gem_value el = Some v ∧ gemRange v ∧
    currentScore w' = Js.Int (s + v) ∧
    numberOfWins w' = numberOfWins w ∧
    numberOfLosses w' = numberOfLosses w + 1 ∧
    outcome w' = Lost ∧
    intervals w' = {[restartID w' := now + 5000]}.
Proof.
  intros Hr Ho Hel w'. subst w'. apply reachable_good in Hr as Hg.
  destruct (good_gem w el Hg Hel) as [_ (v & Hv & Hrange)].
  pose proof (good_cleared w Hg) as Hclr.
  destruct Hg as [_ Hsec _ _ _ _ _ _ (s & Hs & _ & Hround)].
  exists s, v. unfold gemRange in *.
  assert (Hlt : targetNumber w < s + v) by (destruct (outcome w); [done | lia..]).
  rewrite playerClick_eq. simpl. rewrite Hs, Hv. simpl.
  destruct (Z.eqb_spec (s + v) (targetNumber w)) as [Heq|_]; [lia |].
  destruct (Z.ltb_spec (targetNumber w) (s + v)) as [_|Hge]; [| lia].
  repeat split; try done; try lia. simpl. rewrite Hclr, Hsec. reflexivity.
Qed.

Lemma click_after_outcome_witness :
  ∃ s v,
    currentScore sample_won = Js.Int s ∧
    data_gem_value sample_gem7 = Some v ∧ gemRange v ∧
    currentScore (Game.playerClick (Event sample_gem7) 2500 sample_won)
      = Js.Int (s + v).
Proof.
  destruct (click_after_outcome sample_won sample_gem7 2500)
    as (s & v & H1 & H2 & H3 & H4 & _).
  - exact sample_won_reachable.
  - vm_compute. discriminate.
  - apply list_elem_of_lookup. exists 1%nat. vm_compute. reflexivity.
  - exists s, v. exact (conj H1 (conj H2 (conj H3 H4))).
Defined.

(** C1 as stated fails: in the sample session the first round is won with
    the score 19; the same gem clicked again during the countdown brings the
    score to 26, turns the outcome into a loss and counts a loss. *)
Lemma click_after_win_is_scored :
  reachable sample_won ∧ outcome sample_won = Won ∧
  elGemDisplay sample_won !! 1%nat = Some sample_gem7 ∧
  let w' := Game.playerClick (Event sample_gem7) 2500 sample_won in
  step sample_won (Click 1 2500) = Some w' ∧
  currentScore sample_won = Js.Int 19 ∧ currentScore w' = Js.Int 26 ∧
  outcome w' = Lost ∧
  numberOfLosses sample_won = 0 ∧ numberOfLosses w' = 1.
Proof.
  split; [exact sample_won_reachable |].
  vm_compute. repeat split; reflexivity.
Qed.

(** ** Timers *)

Lemma reset_intervals (w w' : World) :
  Game.resetGame w = Some w' → intervals w' = intervals w.
Proof.
  rewrite resetGame_eq. intros Hs.
  by apply start_Some in Hs as (vals & r & rest & _ & ->).
Qed.

(** C3: in a session at most one countdown timer is ever active, and it is
    the one [restartID] names, in a decided round.  [restartGame] cancels the
    timer scheduled before and only then schedules the new one, and the tick
    that finds the time over, the one place from which the script starts a
    round anew, cancels its timer before it calls [resetGame].  So a round
    in progress has no timer, and no tick whatever restarts it. *)
Theorem one_countdown (w : World) :
  reachable w →
  (size (intervals w) ≤ 1)%nat ∧
  (∀ id, is_Some (intervals w !! id) →
     id = restartID w ∧ outcome w ≠ InProgress) ∧
  (∀ seconds now,
     let w' := Game.restartGame seconds now w in
     intervals w' = {[restartID w' := now + seconds * 1000]}) ∧
  (∀ then_ now w',
     Js.round_div1000 (then_ - now) < 0 →
     Game.restartGame_callback then_ now w = Some w' → intervals w' = ∅) ∧
  (outcome w = InProgress →
     intervals w = ∅ ∧ ∀ id t, step w (Timer id t) = Some w).
Proof.
  intros Hr. apply reachable_good in Hr as Hg.
  pose proof (good_cleared w Hg) as Hclr.
  destruct (good_round w Hg) as (s & _ & _ & Hround).
  split; [| split; [| split; [| split]]].
  - destruct (outcome w).
    + destruct Hround as [_ ->]. rewrite map_size_empty. lia.
    + destruct Hround as [_ [t ->]]. rewrite map_size_singleton. lia.
    + destruct Hround as [_ [t ->]]. rewrite map_size_singleton. lia.
  - intros id [t Hid]. destruct (outcome w).
    + destruct Hround as [_ Hi]. by rewrite Hi, lookup_empty in Hid.
    + destruct Hround as [_ [t' Hi]]. rewrite Hi in Hid.
      by apply lookup_singleton_Some in Hid as [<- _].
    + destruct Hround as [_ [t' Hi]]. rewrite Hi in Hid.
      by apply lookup_singleton_Some in Hid as [<- _].
  - intros seconds now w'. subst w'. rewrite restartGame_intervals.
    by rewrite Hclr.
  - intros then_ now w' Hlt. unfold Game.restartGame_callback.
    apply Z.ltb_lt in Hlt. rewrite Hlt.
    destruct (Game.resetGame _) as [w1|] eqn:Hreset; [| done].
    intros [= <-]. apply reset_intervals in Hreset. simpl.
    by rewrite Hreset.
  - intros Ho. rewrite Ho in Hround. destruct Hround as [_ Hi].
    split; [done |]. intros id t. simpl. unfold fire.
    by rewrite Hi, lookup_empty.
Qed.

Lemma one_countdown_witness : (size (intervals sample_won) ≤ 1)%nat.
Proof. apply (one_countdown sample_won). exact sample_won_reachable. Defined.

(** ** The countdown *)

Lemma run_app (l1 l2 : list input) :
  ∀ w, run w (l1 ++ l2) = run w l1 ≫= λ w', run w' l2.
Proof.
  induction l1 as [|i l1 IH]; intros w; simpl; [done |].
  destruct (step w i); simpl; [apply IH | done].
Qed.

Lemma ticks_S (id start : Z) (n : nat) :
  ticks id start (S n) =
    ticks id start n ++ [Timer id (start + 1000 * Z.of_nat (S n))].
Proof. unfold ticks. by rewrite seq_S, map_app. Qed.

(** Seconds left at the [k]-th tick of a countdown of [n] seconds. *)
Lemma secondsLeft_on_time (now n : Z) (k : nat) :
  Js.round_div1000 (now + n * 1000 - (now + 1000 * Z.of_nat k))
    = n - Z.of_nat k.
Proof.
  unfold Js.round_div1000.
  replace (now + n * 1000 - (now + 1000 * Z.of_nat k) + 500)
    with ((n - Z.of_nat k) * 1000 + 500) by lia.
  rewrite Z.div_add_l by lia. change (500 / 1000) with 0. lia.
Qed.

(** A tick that finds time left only writes it to the page. *)
Lemma fire_counting (w : World) (id then_ now : Z) :
  intervals w !! id = Some then_ →
  0 <= Js.round_div1000 (then_ - now) →
  fire id now w =
    Some (Game.displayTimeLeft (Js.round_div1000 (then_ - now)) false w).
Proof.
  intros Hid Hge. unfold fire, Game.restartGame_callback. rewrite Hid.
  apply Z.ltb_ge in Hge. by rewrite Hge.
Qed.

(** A tick that finds the time over. *)
Lemma fire_expired (w : World) (id then_ now : Z) :
  intervals w !! id = Some then_ →
  Js.round_div1000 (then_ - now) < 0 →
  fire id now w =
    option_map (Game.displayTimeLeft (Js.round_div1000 (then_ - now)) false)
      (Game.resetGame (clearInterval (restartID w) w)).
Proof.
  intros Hid Hlt. unfold fire, Game.restartGame_callback. rewrite Hid.
  apply Z.ltb_lt in Hlt. by rewrite Hlt.
Qed.

Lemma run_one (w : World) (i : input) : run w [i] = step w i.
Proof. simpl. by destruct (step w i). Qed.

Lemma displayTimeLeft_seconds (w : World) (s : Z) :
  0 <= s < 60 →
  Game.displayTimeLeft s false w = set_elTimerTimeLeft (Seconds s) w.
Proof.
  intros Hs. unfold Game.displayTimeLeft, Js.rem.
  by rewrite Z.rem_small.
Qed.

Lemma countdown_ticks (w : World) (now : Z) (k : nat) :
  restartSeconds w = 5 → countingDown now w → (1 ≤ k ≤ 5)%nat →
  run w (ticks (restartID w) now k) =
    Some (set_elTimerTimeLeft (Seconds (5 - Z.of_nat k)) w).
Proof.
  intros Hsec [Hid _] Hk. rewrite Hsec in Hid.
  induction k as [|k IH]; [lia |].
  rewrite ticks_S, run_app.
  destruct (decide (k = 0%nat)) as [->|Hk0].
  - change (ticks (restartID w) now 0) with (@nil input).
    change (run w [] ≫= ?f) with (f w). cbv beta.
    rewrite run_one. unfold step.
    erewrite fire_counting; [| exact Hid | rewrite secondsLeft_on_time; lia].
    rewrite secondsLeft_on_time, displayTimeLeft_seconds by lia.
    reflexivity.
  - rewrite IH by lia.
    change (Some ?x ≫= ?f) with (f x). cbv beta.
    rewrite run_one. unfold step.
    erewrite fire_counting; [| exact Hid | rewrite secondsLeft_on_time; lia].
    rewrite secondsLeft_on_time, displayTimeLeft_seconds by lia.
    reflexivity.
Qed.

Lemma resetGame_returns (w : World) (vals : list Z) (r : Q) (rest : list Q) :
  Game.generateGemNumbers_loop (entropy w) [] = Some (vals, r :: rest) →
  Game.resetGame w =
    Some (started false vals (getRandomNumber 19 120 r) rest (cleared w)).
Proof.
  intros Hloop. rewrite resetGame_eq, start_eq.
  change (entropy (cleared w)) with (entropy w).
  change (uniqueGemValues (cleared w)) with (@nil Z).
  by rewrite Hloop.
Qed.

(** C7: the countdown lasts the fixed 5 seconds of [restartSeconds].  From a
    state of a session in which a countdown has begun at [now], the clock
    shows 5; the ticks on time, one a second, show 4, 3, 2, 1, 0 and change
    nothing else; the next tick finds the time below zero, which stops the
    timer and starts the next round, once: the four gems are created anew
    one time, and from then on no timer is left to start a round again.
    (The round is started provided the random values do not keep the
    rejection loop running: here, the draws left give four gem values and a
    target.) *)
Theorem countdown_restarts_round (w : World) (now : Z) (vals : list Z)
    (r : Q) (rest : list Q) :
  reachable w → countingDown now w →
  Game.generateGemNumbers_loop (entropy w) [] = Some (vals, r :: rest) →
  let id := restartID w in
  restartSeconds w = 5 ∧ elTimerTimeLeft w = Seconds 5 ∧
  intervals w = {[id := now + 5000]} ∧
  (∀ k, (1 ≤ k ≤ 5)%nat →
     run w (ticks id now k)
       = Some (set_elTimerTimeLeft (Seconds (5 - Z.of_nat k)) w)) ∧
  ∃ w',
    run w (ticks id now 6) = Some w' ∧
    w' = Game.displayTimeLeft (-1) false
           (started false vals (getRandomNumber 19 120 r) rest
              (cleared (clearInterval id w))) ∧
    intervals w' = ∅ ∧ outcome w' = InProgress ∧
    currentScore w' = Js.Int 0 ∧ nextNode w' = (4 + nextNode w)%nat ∧
    elTimerTimeLeft w' = Seconds (-1) ∧
    numberOfWins w' = numberOfWins w ∧
    numberOfLosses w' = numberOfLosses w ∧
    ∀ id' t, step w' (Timer id' t) = Some w'.
Proof.
  intros Hr Hc Hloop id. subst id. apply reachable_good in Hr as Hg.
  pose proof (good_seconds w Hg) as Hsec.
  pose proof (good_cleared w Hg) as Hclr.
  pose proof Hc as (Hid & _ & Htime). rewrite Hsec in Hid, Htime.
  split; [done |]. split; [done |].
  assert (Hi : intervals w = {[restartID w := now + 5000]}).
  { destruct (good_round w Hg) as (s & _ & _ & Hround).
    destruct (outcome w).
    - destruct Hround as [_ Hi]. by rewrite Hi, lookup_empty in Hid.
    - destruct Hround as [_ [t Hi]]. rewrite Hi, lookup_singleton_eq in Hid.
      injection Hid as ->. by rewrite Hi.
    - destruct Hround as [_ [t Hi]]. rewrite Hi, lookup_singleton_eq in Hid.
      injection Hid as ->. by rewrite Hi. }
  split; [done |]. split; [intros k Hk; by apply countdown_ticks |].
  eexists. split; [| split; [reflexivity |]].
  - rewrite ticks_S, run_app, (countdown_ticks w now 5) by (done || lia).
    change (Some ?x ≫= ?f) with (f x). cbv beta.
    rewrite run_one. unfold step.
    erewrite fire_expired;
      [| exact Hid | rewrite secondsLeft_on_time; lia].
    rewrite secondsLeft_on_time.
    erewrite resetGame_returns by exact Hloop. reflexivity.
  - simpl. rewrite Hclr. repeat split; try reflexivity.
    intros id' t. unfold fire. simpl. rewrite Hclr.
    by rewrite lookup_empty.
Qed.

Lemma countdown_restarts_round_witness :
  run sample_won (ticks (restartID sample_won) 2000 5)
    = Some (set_elTimerTimeLeft (Seconds (5 - Z.of_nat 5)) sample_won).
Proof.
  destruct (countdown_restarts_round sample_won 2000 [2; 6; 8; 10] (1#2)
              [0; 1#12; 1#6; 1#4; 1#2]%Q) as (_ & _ & _ & Hticks & _).
  - exact sample_won_reachable.
  - vm_compute. repeat split; reflexivity.
  - vm_compute. reflexivity.
  - apply Hticks. lia.
Defined.



(** ** The tallies *)

Lemma reset_tally (w w' : World) :
  Game.resetGame w = Some w' →
  numberOfWins w' = numberOfWins w ∧ numberOfLosses w' = numberOfLosses w ∧
  clickHandlers w' = clickHandlers w ∧ outcome w' = InProgress.
Proof.
  rewrite resetGame_eq. intros Hs.
  by apply start_Some in Hs as (vals & r & rest & _ & ->).
Qed.








(** The sample session: one round won, one lost, and the tallies say so. *)
Example sample_session_tally :
  decided Won sample_round sample_session = 1%nat ∧
  decided Lost sample_round sample_session = 1%nat ∧
  numberOfWins (after sample_round sample_session) = 1 ∧
  numberOfLosses (after sample_round sample_session) = 1 ∧
  outcome (after sample_round sample_session) = InProgress.
Proof. vm_compute. repeat split; reflexivity. Qed.

(** * Further properties *)

(** ** The three ways of a click on a gem *)

(** In a session a click on a gem of the round is one of three things. *)
Lemma gem_click (w : World) (el : element) (now : Z) :
  good w → el ∈ elGemDisplay w →
  ∃ s v,
    currentScore w = Js.Int s ∧ data_gem_value el = Some v ∧ gemRange v ∧
    ((s + v = targetNumber w ∧ outcome w = InProgress ∧
      Game.playerClick (Event el) now w =
        Game.restartGame (restartSeconds w) now
          (wonRound (scored (Js.Int (s + v)) w))) ∨
     (targetNumber w < s + v ∧
      Game.playerClick (Event el) now w =
        Game.restartGame (restartSeconds w) now
          (lostRound (scored (Js.Int (s + v)) w))) ∨
     (s + v < targetNumber w ∧ outcome w = InProgress ∧
      Game.playerClick (Event el) now w = scored (Js.Int (s + v)) w)).
Proof.
  intros Hg Hel.
  destruct (good_gem w el Hg Hel) as [_ (v & Hv & Hrange)].
  destruct (good_round w Hg) as (s & Hs & _ & Hround).
  exists s, v. do 3 (split; [done |]).
  unfold gemRange in Hrange.
  rewrite playerClick_eq. simpl. rewrite Hs, Hv. simpl.
  destruct (Z.eqb_spec (s + v) (targetNumber w)) as [Heq|Hne].
  - left. split; [done |]. split; [| done].
    destruct (outcome w); [done | lia..].
  - destruct (Z.ltb_spec (targetNumber w) (s + v)) as [Hlt|Hge].
    + right. left. done.
    + right. right. split; [lia |]. split; [| done].
      destruct (outcome w); [done | lia..].
Qed.

Lemma step_click (w : World) (k : nat) (now : Z) (el : element) :
  good w → elGemDisplay w !! k = Some el →
  step w (Click k now) = Some (Game.playerClick (Event el) now w).
Proof.
  intros Hg Hk. simpl. rewrite Hk.
  apply list_elem_of_lookup_2 in Hk. by rewrite click_gem.
Qed.

(** ** The page follows the state *)

Lemma start_tidy (b : bool) (w w' : World) :
  Game.start b w = Some w' →
  elGemDisplay w = [] → text (elTimerMessage w) = ""%string →
  game_won (elTimerMessage w) = false →
  game_lost (elTimerMessage w) = false →
  elTimerOverlay w ≠ Flex →
  tidy w'.
Proof.
  intros Hs Hd Hm Hgw Hgl Ho.
  apply start_Some in Hs as (vals & r & rest & _ & ->).
  split; simpl; try done.
  - unfold outcome. simpl. by rewrite Hm.
  - unfold outcome. simpl. by rewrite Hm.
  - rewrite Hd. unfold gemButton. simpl. repeat constructor; simpl; lia.
Qed.

Lemma displayTimeLeft_tidy (seconds : Z) (m : bool) (w : World) :
  tidy w → tidy (Game.displayTimeLeft seconds m w).
Proof. intros [? ? ? ? ? ? ?]. by split. Qed.

Lemma playerClick_tidy (w : World) (el : element) (now : Z) :
  good w → tidy w → el ∈ elGemDisplay w →
  tidy (Game.playerClick (Event el) now w).
Proof.
  intros Hg Ht Hel.
  destruct (gem_click w el now Hg Hel)
    as (s & v & Hs & Hv & Hr & [(Heq & Ho & ->)|[(Hlt & ->)|(Hlt & Ho & ->)]]).
  - destruct Ht as [? ? ? ? Hov Hcl Hn]. rewrite Ho in Hcl.
    destruct Hcl as [_ Hgl].
    split; simpl; done.
  - destruct Ht as [? ? ? ? Hov Hcl Hn].
    split; simpl; done.
  - destruct Ht as [? ? ? ? Hov Hcl Hn].
    split; simpl; done.
Qed.

Lemma callback_tidy (w w' : World) (then_ now : Z) :
  tidy w → Game.restartGame_callback then_ now w = Some w' → tidy w'.
Proof.
  intros Ht. unfold Game.restartGame_callback.
  destruct (Js.round_div1000 (then_ - now) <? 0).
  - destruct (Game.resetGame _) as [w1|] eqn:Hr; [| done].
    intros [= <-]. apply displayTimeLeft_tidy.
    destruct Ht as [? ? ? ? Hov Hcl Hn].
    rewrite resetGame_eq in Hr. eapply start_tidy in Hr; simpl; done.
  - intros [= <-]. by apply displayTimeLeft_tidy.
Qed.

Lemma step_tidy (w w' : World) (i : input) :
  good w → tidy w → step w i = Some w' → tidy w'.
Proof.
  intros Hg Ht. destruct i as [k now|id now].
  - destruct (elGemDisplay w !! k) as [el|] eqn:Hk.
    + rewrite (step_click w k now el) by done. intros [= <-].
      apply playerClick_tidy; [done.. |]. by eapply list_elem_of_lookup_2.
    + simpl. rewrite Hk. by intros [= <-].
  - simpl. unfold fire. destruct (intervals w !! id); [| by intros [= <-]].
    by apply callback_tidy.
Qed.

Lemma run_tidy (inputs : list input) :
  ∀ w w', good w → tidy w → run w inputs = Some w' → tidy w'.
Proof.
  induction inputs as [|i inputs IH]; intros w w' Hg Ht; simpl.
  - by intros [= <-].
  - destruct (step w i) as [w1|] eqn:Hs; [| done].
    apply IH; [by eapply step_good | by eapply step_tidy].
Qed.

Lemma reachable_tidy (w : World) : reachable w → tidy w.
Proof.
  intros (draws & inputs & w0 & Hd & Hb & Hr).
  eapply run_tidy; [by eapply boot_good | | done].
  unfold boot in Hb. eapply start_tidy in Hb; done.
Qed.

(** X3: in a session the page always shows the state: the two tallies, the
    score and the target on the page are the values of the variables. *)
Theorem page_shows_state (w : World) :
  reachable w →
  elGamesWon w = Some (numberOfWins w) ∧
  elGamesLost w = Some (numberOfLosses w) ∧
  elTotalScore w = Some (currentScore w) ∧
  elTargetNumber w = Some (targetNumber w).
Proof.
  intros Hr. apply reachable_tidy in Hr as [? ? ? ? _ _ _]. done.
Qed.

Lemma page_shows_state_witness :
  elGamesWon sample_won = Some (numberOfWins sample_won).
Proof.
  apply (page_shows_state sample_won). exact sample_won_reachable.
Defined.

(** X4: in a session the overlay is shown exactly while the round is
    decided, which is exactly while a countdown timer is active; and the
    classes of the message follow the outcome: none while the round is in
    progress, [game-won] alone on a won round, [game-lost] on a lost one. *)
Theorem overlay_follows_outcome (w : World) :
  reachable w →
  (elTimerOverlay w = Flex ↔ outcome w ≠ InProgress) ∧
  (elTimerOverlay w = Flex ↔ intervals w ≠ ∅) ∧
  (outcome w = InProgress →
     game_won (elTimerMessage w) = false ∧
     game_lost (elTimerMessage w) = false) ∧
  (outcome w = Won →
     game_won (elTimerMessage w) = true ∧
     game_lost (elTimerMessage w) = false) ∧
  (outcome w = Lost → game_lost (elTimerMessage w) = true).
Proof.
  intros Hr. apply reachable_good in Hr as Hg.
  apply reachable_tidy in Hr as [_ _ _ _ Hov Hcl _].
  destruct (good_round w Hg) as (s & _ & _ & Hround).
  assert (Hne : ∀ (k t : Z), ({[k := t]} : gmap Z Z) ≠ ∅).
  { intros k t Hk. apply (f_equal (λ m : gmap Z Z, m !! k)) in Hk.
    by rewrite lookup_singleton_eq, lookup_empty in Hk. }
  destruct (outcome w).
  - destruct Hround as [_ ->]. repeat split; first [done | by destruct Hcl].
  - destruct Hround as [_ [t ->]].
    repeat split; first [done | by destruct Hcl].
  - destruct Hround as [_ [t ->]]. repeat split; done.
Qed.

Lemma overlay_follows_outcome_witness :
  elTimerOverlay sample_won = Flex ↔ outcome sample_won ≠ InProgress.
Proof.
  apply (overlay_follows_outcome sample_won). exact sample_won_reachable.
Defined.

(** ** Handlers *)

Lemma scored_below (w : World) (el : element) (now s v : Z) :
  currentScore w = Js.Int s → data_gem_value el = Some v →
  s + v < targetNumber w →
  Game.playerClick (Event el) now w = scored (Js.Int (s + v)) w.
Proof.
  intros Hs Hv Hlt. rewrite playerClick_eq. simpl. rewrite Hs, Hv. simpl.
  destruct (Z.eqb_spec (s + v) (targetNumber w)); [lia |].
  destruct (Z.ltb_spec (targetNumber w) (s + v)); [lia | done].
Qed.

Lemma iter_playerClick (w : World) (el : element) (now s v : Z) (k : nat) :
  currentScore w = Js.Int s → data_gem_value el = Some v → 0 <= v →
  s + Z.of_nat (S k) * v < targetNumber w →
  Nat.iter (S k) (Game.playerClick (Event el) now) w
    = scored (Js.Int (s + Z.of_nat (S k) * v)) w.
Proof.
  intros Hs Hv Hv0. induction k as [|k IH]; intros Hlt.
  - simpl Nat.iter. rewrite (scored_below w el now s v) by (done || lia).
    do 2 f_equal. lia.
  - change (Nat.iter (S (S k)) ?f w) with (f (Nat.iter (S k) f w)).
    rewrite IH by nia.
    rewrite (scored_below _ el now (s + Z.of_nat (S k) * v) v);
      [| done | done | simpl targetNumber; nia].
    change (scored ?n (scored ?m w)) with (scored n w).
    do 2 f_equal. lia.
Qed.

(** X1: every handler bound on [#gem-display] runs on a click, so the gem
    counts once per handler: with [n] handlers bound a click on a gem worth
    [v] adds [n * v] to the score (here while the sum stays below the
    target, so that nothing else happens).  This is why [start] binds on
    page load only. *)
Theorem handlers_multiply_a_click (w : World) (el : element) (now s v : Z) :
  el ∈ elGemDisplay w → "gem-button"%string ∈ classes el →
  currentScore w = Js.Int s → data_gem_value el = Some v → 0 <= v →
  (0 < clickHandlers w)%nat →
  s + Z.of_nat (clickHandlers w) * v < targetNumber w →
  click el now w = scored (Js.Int (s + Z.of_nat (clickHandlers w) * v)) w.
Proof.
  intros Hel Hc Hs Hv Hv0 Hn Hlt. unfold click.
  rewrite !bool_decide_eq_true_2 by done. simpl andb. cbv iota.
  destruct (clickHandlers w) as [|k]; [lia |].
  by apply iter_playerClick.
Qed.

Lemma handlers_multiply_a_click_witness :
  click sample_gem4 1000 (Game.bind sample_round)
    = scored (Js.Int (0 + Z.of_nat 2 * 4)) (Game.bind sample_round).
Proof.
  apply (handlers_multiply_a_click (Game.bind sample_round) sample_gem4
           1000 0 4).
  - apply list_elem_of_lookup. exists 3%nat. vm_compute. reflexivity.
  - apply elem_of_cons. left. reflexivity.
  - vm_compute. reflexivity.
  - reflexivity.
  - lia.
  - vm_compute. lia.
  - vm_compute. reflexivity.
Defined.

(** X2: in a session exactly one handler is bound, whatever the number of
    rounds played ([resetGame] starts without binding): a click on the
    [k]-th gem is one call of [playerClick] with that gem as target, and a
    click where there is no gem does nothing. *)
Theorem one_handler_in_a_session (w : World) :
  reachable w →
  clickHandlers w = 1%nat ∧
  length (elGemDisplay w) = 4%nat ∧
  (∀ k now el, elGemDisplay w !! k = Some el →
     step w (Click k now) = Some (Game.playerClick (Event el) now w)) ∧
  (∀ k now, (4 ≤ k)%nat → step w (Click k now) = Some w).
Proof.
  intros Hr. apply reachable_good in Hr as Hg.
  assert (Hlen : length (elGemDisplay w) = 4%nat).
  { destruct (good_gems w Hg) as (vals & Hmap & Hlen & _).
    apply (f_equal length) in Hmap. rewrite !length_map in Hmap. lia. }
  split; [by apply good_handlers |]. split; [done |]. split.
  - intros k now el Hk. by apply step_click.
  - intros k now Hk. simpl. rewrite lookup_ge_None_2 by lia. done.
Qed.

Lemma one_handler_in_a_session_witness :
  clickHandlers sample_second = 1%nat.
Proof.
  apply (one_handler_in_a_session sample_second).
  exists sample_draws, ([Click 0 1000; Click 1 2000] ++ ticks 1 2000 6),
    sample_round.
  split; [exact sample_draws_unit |]. split; vm_compute; reflexivity.
Defined.

(** ** One input, at most one result *)

(** X13: in a session one input counts at most one result: it leaves both
    tallies, or counts one win, which only a round in progress can give, or
    counts one loss. *)
Theorem one_result_per_input (w w' : World) (i : input) :
  reachable w → step w i = Some w' →
  (numberOfWins w' = numberOfWins w ∧ numberOfLosses w' = numberOfLosses w) ∨
  (numberOfWins w' = numberOfWins w + 1 ∧
   numberOfLosses w' = numberOfLosses w ∧
   outcome w = InProgress ∧ outcome w' = Won) ∨
  (numberOfWins w' = numberOfWins w ∧
   numberOfLosses w' = numberOfLosses w + 1 ∧ outcome w' = Lost).
Proof.
  intros Hr. apply reachable_good in Hr as Hg.
  destruct i as [k now|id now].
  - destruct (elGemDisplay w !! k) as [el|] eqn:Hk.
    + rewrite (step_click w k now el) by done. intros [= <-].
      apply list_elem_of_lookup_2 in Hk.
      destruct (gem_click w el now Hg Hk)
        as (s & v & _ & _ & _ & [(_ & Ho & ->)|[(_ & ->)|(_ & _ & ->)]]).
      * right. left. do 3 (split; [done |]). by apply outcome_won.
      * right. right. do 2 (split; [done |]). by apply outcome_lost.
      * left. done.
    + simpl. rewrite Hk. intros [= <-]. by left.
  - simpl. unfold fire, Game.restartGame_callback.
    destruct (intervals w !! id) as [then_|]; [| intros [= <-]; by left].
    destruct (Js.round_div1000 (then_ - now) <? 0).
    + destruct (Game.resetGame _) as [w1|] eqn:Hreset; [| done].
      intros [= <-]. apply reset_tally in Hreset as (Hw & Hl & _).
      left. done.
    + intros [= <-]. by left.
Qed.

Lemma one_result_per_input_witness :
  let w' := after sample_round [Click 0 1000] in
  (numberOfWins w' = numberOfWins sample_round ∧
   numberOfLosses w' = numberOfLosses sample_round) ∨
  (numberOfWins w' = numberOfWins sample_round + 1 ∧
   numberOfLosses w' = numberOfLosses sample_round ∧
   outcome sample_round = InProgress ∧ outcome w' = Won) ∨
  (numberOfWins w' = numberOfWins sample_round ∧
   numberOfLosses w' = numberOfLosses sample_round + 1 ∧ outcome w' = Lost).
Proof.
  apply (one_result_per_input sample_round _ (Click 0 1000));
    [exact sample_round_reachable | vm_compute; reflexivity].
Defined.

(** ** A round ends, and may be out of reach *)

Lemma good_four (w : World) : good w → length (elGemDisplay w) = 4%nat.
Proof.
  intros Hg. destruct (good_gems w Hg) as (vals & Hmap & Hlen & _).
  apply (f_equal length) in Hmap. rewrite !length_map in Hmap. lia.
Qed.

(** What a click on a gem leaves and what it moves. *)
Lemma gem_click_moves (w : World) (el : element) (now : Z) :
  good w → el ∈ elGemDisplay w →
  let w' := Game.playerClick (Event el) now w in
  ∃ s v,
    currentScore w = Js.Int s ∧ data_gem_value el = Some v ∧ gemRange v ∧
    currentScore w' = Js.Int (s + v) ∧
    targetNumber w' = targetNumber w ∧ elGemDisplay w' = elGemDisplay w ∧
    entropy w' = entropy w ∧
    (outcome w' = Won → s + v = targetNumber w ∧
                        numberOfWins w' = numberOfWins w + 1) ∧
    (outcome w' ≠ Won → numberOfWins w' = numberOfWins w) ∧
    (outcome w ≠ InProgress → outcome w' ≠ InProgress).
Proof.
  intros Hg Hel w'. subst w'.
  destruct (gem_click w el now Hg Hel)
    as (s & v & Hs & Hv & Hr & [(Heq & Ho & ->)|[(Hlt & ->)|(Hlt & Ho & ->)]]);
    exists s, v; do 7 (split; [done |]).
  - rewrite outcome_won by done. done.
  - rewrite outcome_lost by done. done.
  - change (outcome (scored ?n ?x)) with (outcome x). rewrite Ho. done.
Qed.

Lemma run_cons (w : World) (i : input) (inputs : list input) :
  run w (i :: inputs) = step w i ≫= λ w', run w' inputs.
Proof. simpl. by destruct (step w i). Qed.

Lemma clicks_decide (inputs : list input) :
  ∀ w s,
    good w → currentScore w = Js.Int s → Forall isGemClick inputs →
    targetNumber w - s <= Z.of_nat (length inputs) →
    ∃ w', run w inputs = Some w' ∧ outcome w' ≠ InProgress.
Proof.
  induction inputs as [|i inputs IH]; intros w s Hg Hs Hall Hlen.
  - exists w. split; [done |]. simpl in Hlen.
    destruct (good_round w Hg) as (s' & Hs' & _ & Hround).
    rewrite Hs in Hs'. injection Hs' as <-.
    destruct (outcome w); [lia | done..].
  - inversion_clear Hall as [|? ? Hi Hall'].
    destruct i as [k now|]; [| done]. simpl in Hi.
    destruct (lookup_lt_is_Some_2 (elGemDisplay w) k) as [el Hk];
      [rewrite good_four by done; lia |].
    rewrite run_cons, (step_click w k now el) by done.
    change (Some ?x ≫= ?f) with (f x). cbv beta.
    apply list_elem_of_lookup_2 in Hk.
    destruct (gem_click_moves w el now Hg Hk)
      as (s' & v & Hs' & _ & Hr & Hs1 & Ht & _).
    rewrite Hs in Hs'. injection Hs' as <-. unfold gemRange in Hr.
    apply (IH _ (s + v)); [by apply playerClick_good | done | done |].
    rewrite Ht. simpl length in Hlen. lia.
Qed.

(** X5: a round cannot go on for ever.  In a session, clicks on gems decide
    the round in progress after at most [target - score] of them (each gem is
    worth at least 1), and a decided round stays decided under clicks. *)
Theorem round_is_decided_in_time (w : World) (s : Z) (inputs : list input) :
  reachable w → currentScore w = Js.Int s → Forall isGemClick inputs →
  targetNumber w - s <= Z.of_nat (length inputs) →
  ∃ w', run w inputs = Some w' ∧ outcome w' ≠ InProgress.
Proof.
  intros Hr Hs Hall Hlen.
  eapply clicks_decide; [by apply reachable_good | done..].
Qed.

Lemma round_is_decided_in_time_witness :
  ∃ w', run sample_round (repeat (Click 2 0) 19) = Some w' ∧
        outcome w' ≠ InProgress.
Proof.
  apply (round_is_decided_in_time sample_round 0).
  - exact sample_round_reachable.
  - vm_compute. reflexivity.
  - simpl. repeat (constructor; [simpl; lia |]). constructor.
  - vm_compute. discriminate.
Defined.

Lemma clicks_cannot_win (d : Z) (inputs : list input) :
  ∀ w w' s,
    good w → outcome w ≠ Won → currentScore w = Js.Int s →
    ¬ (d | targetNumber w - s) →
    Forall (λ el, ∀ v, data_gem_value el = Some v → (d | v))
      (elGemDisplay w) →
    Forall isClick inputs → run w inputs = Some w' →
    outcome w' ≠ Won ∧ numberOfWins w' = numberOfWins w.
Proof.
  induction inputs as [|i inputs IH];
    intros w w' s Hg Ho Hs Hnd Hgems Hall.
  - by intros [= <-].
  - inversion_clear Hall as [|? ? Hi Hall'].
    destruct i as [k now|]; [| done]. rewrite run_cons.
    destruct (elGemDisplay w !! k) as [el|] eqn:Hk.
    + rewrite (step_click w k now el) by done.
      change (Some ?x ≫= ?f) with (f x). cbv beta.
      apply list_elem_of_lookup_2 in Hk.
      destruct (gem_click_moves w el now Hg Hk)
        as (s' & v & Hs' & Hv & _ & Hs1 & Ht & Hd & _ & Hwon & Hsame & _).
      rewrite Hs in Hs'. injection Hs' as <-.
      rewrite Forall_forall in Hgems. pose proof (Hgems el Hk v Hv) as Hdv.
      assert (Hnd' : ¬ (d | targetNumber w - (s + v))).
      { intros Hdiv. apply Hnd.
        replace (targetNumber w - s) with (targetNumber w - (s + v) + v)
          by lia.
        by apply Z.divide_add_r. }
      assert (Ho' : outcome (Game.playerClick (Event el) now w) ≠ Won).
      { intros Hw. apply Hwon in Hw as [Heq _]. apply Hnd'.
        replace (targetNumber w - (s + v)) with 0 by lia.
        apply Z.divide_0_r. }
      intros Hrun.
      eapply IH in Hrun as [Hout Hwins];
        [| by apply playerClick_good | done | done | by rewrite Ht
         | rewrite Hd; by apply Forall_forall | done].
      split; [done |]. rewrite Hwins. by apply Hsame.
    + simpl step. rewrite Hk.
      change (Some ?x ≫= ?f) with (f x). cbv beta.
      intros Hrun. by apply (IH w w' s).
Qed.

(** X6: the numbers drawn can make a round that cannot be won.  In a
    session, when some [d] divides the value of every gem of a round in
    progress and does not divide what is missing to the target, no sequence
    of clicks wins the round: the wins stay as they are (four even gems and
    an odd target, for one). *)
Theorem round_out_of_reach (w w' : World) (d s : Z) (inputs : list input) :
  reachable w → outcome w = InProgress → currentScore w = Js.Int s →
  Forall (λ el, ∀ v, data_gem_value el = Some v → (d | v))
    (elGemDisplay w) →
  ¬ (d | targetNumber w - s) →
  Forall isClick inputs → run w inputs = Some w' →
  outcome w' ≠ Won ∧ numberOfWins w' = numberOfWins w.
Proof.
  intros Hr Ho Hs Hgems Hnd Hall Hrun.
  eapply (clicks_cannot_win d inputs w w' s); try done.
  - by apply reachable_good.
  - by rewrite Ho.
Qed.

Lemma even_draws_unit : Forall unit_interval even_draws.
Proof.
  unfold even_draws.
  repeat constructor; (unfold Qle || unfold Qlt); simpl; lia.
Qed.

Lemma round_out_of_reach_witness :
  outcome (after even_round (repeat (Click 3 0) 3)) ≠ Won ∧
  numberOfWins (after even_round (repeat (Click 3 0) 3))
    = numberOfWins even_round.
Proof.
  apply (round_out_of_reach even_round _ 2 0 (repeat (Click 3 0) 3)).
  - exists even_draws, [], even_round.
    split; [exact even_draws_unit |]. split; vm_compute; reflexivity.
  - vm_compute. reflexivity.
  - vm_compute. reflexivity.
  - assert (elGemDisplay even_round =
            [gemButton 0 "emerald" (Some 2); gemButton 1 "ruby" (Some 4);
             gemButton 2 "sapphire" (Some 6); gemButton 3 "topaz" (Some 8)])
      as -> by (vm_compute; reflexivity).
    repeat constructor; intros v [= <-];
      [by exists 1 | by exists 2 | by exists 3 | by exists 4].
  - assert (targetNumber even_round - 0 = 19) as ->
      by (vm_compute; reflexivity).
    intros [x Hx]. lia.
  - simpl. repeat constructor.
  - vm_compute. reflexivity.
Defined.

(** ** What changes the round *)

(** X7: in a session the gems, the target and the random values left stay
    as they are under every input but one: the tick of a decided round that
    finds the time over.  That tick starts a round in progress with the
    score 0, and none of its buttons is a node of the round before. *)
Theorem round_changes_on_expiry_only (w w' : World) (i : input) :
  reachable w → step w i = Some w' →
  (elGemDisplay w' = elGemDisplay w ∧ targetNumber w' = targetNumber w ∧
   entropy w' = entropy w) ∨
  (∃ id now then_,
     i = Timer id now ∧ intervals w !! id = Some then_ ∧
     then_ + 500 < now ∧
     outcome w ≠ InProgress ∧ outcome w' = InProgress ∧
     currentScore w' = Js.Int 0 ∧
     ∀ el el', el ∈ elGemDisplay w → el' ∈ elGemDisplay w' →
               node el ≠ node el').
Proof.
  intros Hr. apply reachable_good in Hr as Hg.
  apply reachable_tidy in Hr as Ht.
  destruct i as [k now|id now].
  - intros Hstep. left. destruct (elGemDisplay w !! k) as [el|] eqn:Hk.
    + rewrite (step_click w k now el) in Hstep by done.
      injection Hstep as <-.
      apply list_elem_of_lookup_2 in Hk.
      by destruct (gem_click_moves w el now Hg Hk)
        as (s & v & _ & _ & _ & _ & ? & ? & ? & _).
    + simpl in Hstep. rewrite Hk in Hstep. by injection Hstep as <-.
  - simpl. unfold fire, Game.restartGame_callback.
    destruct (intervals w !! id) as [then_|] eqn:Hid;
      [| intros [= <-]; by left].
    destruct (Z.ltb_spec (Js.round_div1000 (then_ - now)) 0) as [Hlt|Hge];
      [| intros [= <-]; by left].
    destruct (Game.resetGame _) as [w1|] eqn:Hreset; [| done].
    intros [= <-]. right. exists id, now, then_.
    split; [done |]. split; [done |]. split.
    { unfold Js.round_div1000 in Hlt.
      pose proof (Z.div_mod (then_ - now + 500) 1000 ltac:(lia)).
      pose proof (Z.mod_pos_bound (then_ - now + 500) 1000 ltac:(lia)).
      lia. }
    split.
    { destruct (good_round w Hg) as (s & _ & _ & Hround).
      destruct (outcome w); [| done..].
      destruct Hround as [_ Hi]. by rewrite Hi, lookup_empty in Hid. }
    pose proof (tidy_nodes w Ht) as Hn. rewrite Forall_forall in Hn.
    rewrite resetGame_eq in Hreset.
    apply start_Some in Hreset as (vals & r & rest & _ & ->).
    split; [done |]. split; [done |].
    intros el el' Hel Hel'. apply Hn in Hel. simpl in Hel'.
    rewrite !elem_of_cons in Hel'.
    destruct Hel' as [->|[->|[->|[->|Hnil]]]]; simpl; try lia.
    by apply elem_of_nil in Hnil.
Qed.

Lemma round_changes_on_expiry_only_witness :
  let w' := after sample_won [Timer 1 8000] in
  (elGemDisplay w' = elGemDisplay sample_won ∧
   targetNumber w' = targetNumber sample_won ∧
   entropy w' = entropy sample_won) ∨
  (∃ id now then_,
     Timer 1 8000 = Timer id now ∧
     intervals sample_won !! id = Some then_ ∧ then_ + 500 < now ∧
     outcome sample_won ≠ InProgress ∧ outcome w' = InProgress ∧
     currentScore w' = Js.Int 0 ∧
     ∀ el el', el ∈ elGemDisplay sample_won → el' ∈ elGemDisplay w' →
               node el ≠ node el').
Proof.
  apply (round_changes_on_expiry_only sample_won _ (Timer 1 8000));
    [exact sample_won_reachable | vm_compute; reflexivity].
Defined.

(** ** The rejection loop keeps what it has *)

Lemma loop_keeps (draws : list Q) :
  ∀ vals vals' rest,
    Game.generateGemNumbers_loop draws vals = Some (vals', rest) →
    vals `prefix_of` vals' ∧ (4 ≤ length vals')%nat.
Proof.
  induction draws as [|r draws IH]; intros vals vals' rest; simpl.
  - destruct (length vals <? 4)%nat eqn:Hlt; [done |].
    apply Nat.ltb_ge in Hlt. by intros [= <- <-].
  - destruct (length vals <? 4)%nat eqn:Hlt.
    + destruct (Js.includes _ vals); simpl; intros Hloop;
        apply IH in Hloop as [Hpre ?]; (split; [| done]); [done |].
      by eapply prefix_app_l.
    + apply Nat.ltb_ge in Hlt. by intros [= <- <-].
Qed.

Lemma loop_full (draws : list Q) (vals : list Z) :
  (4 ≤ length vals)%nat →
  Game.generateGemNumbers_loop draws vals = Some (vals, draws).
Proof.
  intros Hlen. apply Nat.ltb_ge in Hlen.
  destruct draws; simpl; by rewrite Hlen.
Qed.

(** X8: [generateGemNumbers] only ever pushes: the values the array holds
    stay in front, in place, and the random values left are the end of those
    it was given.  It returns with four values or more, and then a second
    call draws nothing and changes nothing; neither does a call on an array
    that holds four values already. *)
Theorem generateGemNumbers_keeps_and_stops (w w1 : World) :
  Game.generateGemNumbers w = Some w1 →
  uniqueGemValues w `prefix_of` uniqueGemValues w1 ∧
  (4 ≤ length (uniqueGemValues w1))%nat ∧
  entropy w1 `suffix_of` entropy w ∧
  Game.generateGemNumbers w1 = Some w1 ∧
  ((4 ≤ length (uniqueGemValues w))%nat →
     uniqueGemValues w1 = uniqueGemValues w ∧ entropy w1 = entropy w).
Proof.
  unfold Game.generateGemNumbers.
  destruct (Game.generateGemNumbers_loop _ _) as [[vals rest]|] eqn:Hloop;
    [| done].
  intros [= <-]. pose proof (loop_keeps _ _ _ _ Hloop) as [Hpre Hlen].
  split; [done |]. split; [done |].
  split; [by eapply loop_rest |]. split.
  - change (entropy (set_entropy rest _)) with rest.
    change (uniqueGemValues (set_entropy rest (set_uniqueGemValues vals w)))
      with vals.
    by rewrite loop_full.
  - intros Hfull. rewrite loop_full in Hloop by done.
    by injection Hloop as <- <-.
Qed.

Lemma generateGemNumbers_keeps_and_stops_witness :
  Game.generateGemNumbers
    (default (loaded []) (Game.generateGemNumbers (loaded sample_draws)))
  = Some (default (loaded []) (Game.generateGemNumbers (loaded sample_draws))).
Proof.
  apply (generateGemNumbers_keeps_and_stops (loaded sample_draws)).
  vm_compute. reflexivity.
Defined.

(** ** Ticks *)

Lemma round_div1000_neg (d : Z) : Js.round_div1000 d < 0 ↔ d < -500.
Proof.
  unfold Js.round_div1000.
  pose proof (Z.div_mod (d + 500) 1000 ltac:(lia)).
  pose proof (Z.mod_pos_bound (d + 500) 1000 ltac:(lia)).
  lia.
Qed.

(** X9: a tick restarts the game only when it comes more than half a second
    after the deadline of the countdown (the seconds left are rounded to the
    nearest).  Up to there it only writes the clock.  The seconds left that
    a later tick computes are never more than those of an earlier tick; and
    the clock, which shows them modulo 60, never shows more either when the
    earlier tick comes less than 59.5 seconds before the deadline. *)
Theorem tick_restarts_past_the_deadline (w : World) (id then_ now : Z) :
  intervals w !! id = Some then_ →
  (now <= then_ + 500 →
     0 <= Js.round_div1000 (then_ - now) ∧
     fire id now w =
       Some (set_elTimerTimeLeft
               (Seconds (Js.rem (Js.round_div1000 (then_ - now)) 60)) w)) ∧
  (then_ + 500 < now →
     fire id now w =
       option_map
         (Game.displayTimeLeft (Js.round_div1000 (then_ - now)) false)
         (Game.resetGame (clearInterval (restartID w) w))) ∧
  (∀ later, now <= later →
     Js.round_div1000 (then_ - later) <= Js.round_div1000 (then_ - now)) ∧
  (∀ later, now <= later → later <= then_ + 500 → then_ - now < 59500 →
     ∃ shown shown',
       elTimerTimeLeft <$> fire id now w = Some (Seconds shown) ∧
       elTimerTimeLeft <$> fire id later w = Some (Seconds shown') ∧
       0 <= shown' <= shown ∧ shown < 60).
Proof.
  intros Hid. split; [| split; [| split]].
  - intros Hle.
    assert (Hge : 0 <= Js.round_div1000 (then_ - now)).
    { pose proof (round_div1000_neg (then_ - now)). lia. }
    split; [done |]. by rewrite (fire_counting w id then_ now).
  - intros Hlt. apply fire_expired; [done |].
    apply round_div1000_neg. lia.
  - intros later Hle. unfold Js.round_div1000.
    apply Z.div_le_mono; lia.
  - intros later Hle Hlater Hmin.
    pose proof (round_div1000_neg (then_ - now)) as Hn.
    pose proof (round_div1000_neg (then_ - later)) as Hl.
    assert (Hmono : Js.round_div1000 (then_ - later)
                    <= Js.round_div1000 (then_ - now)).
    { unfold Js.round_div1000. apply Z.div_le_mono; lia. }
    assert (Hup : Js.round_div1000 (then_ - now) < 60).
    { unfold Js.round_div1000. apply Z.div_lt_upper_bound; lia. }
    exists (Js.round_div1000 (then_ - now)),
           (Js.round_div1000 (then_ - later)).
    rewrite (fire_counting w id then_ now) by (done || lia).
    rewrite (fire_counting w id then_ later) by (done || lia).
    rewrite !displayTimeLeft_seconds by lia.
    repeat split; (done || lia).
Qed.

Lemma tick_restarts_past_the_deadline_witness :
  0 <= Js.round_div1000 (7000 - 7500) ∧
  fire 1 7500 sample_won =
    Some (set_elTimerTimeLeft
            (Seconds (Js.rem (Js.round_div1000 (7000 - 7500)) 60))
            sample_won).
Proof.
  apply (tick_restarts_past_the_deadline sample_won 1 7000 7500).
  - vm_compute. reflexivity.
  - lia.
Defined.

(** ** A new round from any state *)

(** X10: [resetGame] makes a round in progress out of any state: the score
    is 0 and shown as 0, the message is empty and without classes, the
    overlay hidden, the clock empty, the array of values empty again, and the
    display holds four new buttons with four different values from 1 to 12
    under a target from 19 to 120.  It leaves the handlers and the timers
    alone. *)
Theorem resetGame_makes_a_round (w w' : World) :
  Forall unit_interval (entropy w) → Game.resetGame w = Some w' →
  currentScore w' = Js.Int 0 ∧ elTotalScore w' = Some (Js.Int 0) ∧
  outcome w' = InProgress ∧
  elTimerMessage w' = Message false false "" ∧
  elTimerOverlay w' = DisplayNone ∧ elTimerTimeLeft w' = NoTime ∧
  uniqueGemValues w' = [] ∧
  map node (elGemDisplay w') = seq (nextNode w) 4 ∧
  (∃ vals, map data_gem_value (elGemDisplay w') = map Some vals ∧
           length vals = 4%nat ∧ NoDup vals ∧ Forall gemRange vals) ∧
  19 <= targetNumber w' <= 120 ∧
  elTargetNumber w' = Some (targetNumber w') ∧
  clickHandlers w' = clickHandlers w ∧ intervals w' = intervals w ∧
  restartID w' = restartID w.
Proof.
  intros Hd. rewrite resetGame_eq. intros Hs.
  apply start_Some in Hs as (vals & r & rest & Hloop & ->).
  change (entropy (cleared w)) with (entropy w) in Hloop.
  change (uniqueGemValues (cleared w)) with (@nil Z) in Hloop.
  pose proof (loop_rest _ _ _ _ Hloop) as Hrest.
  apply unit_suffix in Hrest; [| done].
  inversion_clear Hrest as [|? ? Hr _].
  apply loop_sound in Hloop as (Hlen & Hnd & Hrange & _);
    [| done | simpl; lia | constructor..].
  destruct vals as [|v1 [|v2 [|v3 [|v4 [|]]]]]; try done.
  do 8 (split; [reflexivity |]).
  split; [by exists [v1; v2; v3; v4] |].
  split; [apply getRandomNumber_between; [lia | done] |].
  repeat split; reflexivity.
Qed.

Lemma resetGame_makes_a_round_witness :
  currentScore (default sample_won (Game.resetGame sample_lost)) = Js.Int 0.
Proof.
  apply (resetGame_makes_a_round sample_lost).
  - assert (entropy sample_lost = drop 5 sample_draws) as ->
      by (vm_compute; reflexivity).
    apply Forall_drop. exact sample_draws_unit.
  - vm_compute. reflexivity.
Defined.

(** ** The clock with minutes *)

(** X11: asked for minutes, [displayTimeLeft] splits a time that is not
    negative into minutes and seconds below 60 that add up to it, with the
    leading zero exactly for seconds below 10; without minutes it shows the
    seconds below 60 alone, so the full time only when that is below 60. *)
Theorem displayTimeLeft_splits (w : World) (seconds : Z) :
  0 <= seconds →
  ∃ m r,
    elTimerTimeLeft (Game.displayTimeLeft seconds true w)
      = Clock m (r <? 10) r ∧
    elTimerTimeLeft (Game.displayTimeLeft seconds false w) = Seconds r ∧
    m * 60 + r = seconds ∧ 0 <= m ∧ 0 <= r < 60 ∧
    (seconds < 60 → r = seconds).
Proof.
  intros Hs. exists (seconds / 60), (seconds mod 60).
  unfold Game.displayTimeLeft, Js.rem, Js.floor_div. simpl.
  rewrite Z.rem_mod_nonneg by lia.
  pose proof (Z.div_mod seconds 60 ltac:(lia)).
  pose proof (Z.mod_pos_bound seconds 60 ltac:(lia)).
  pose proof (Z.div_pos seconds 60 Hs ltac:(lia)).
  assert (Hsmall : seconds < 60 → seconds mod 60 = seconds)
    by (intros; apply Z.mod_small; lia).
  repeat split; lia.
Qed.

Lemma displayTimeLeft_splits_witness :
  ∃ m r,
    elTimerTimeLeft (Game.displayTimeLeft 75 true sample_won)
      = Clock m (r <? 10) r ∧
    elTimerTimeLeft (Game.displayTimeLeft 75 false sample_won) = Seconds r ∧
    m * 60 + r = 75.
Proof.
  destruct (displayTimeLeft_splits sample_won 75) as (m & r & H1 & H2 & H3 & _);
    [lia |].
  exists m, r. exact (conj H1 (conj H2 H3)).
Defined.

(** X12: for a negative time that is no whole number of minutes the two
    parts do not add up: the minutes are rounded down and the seconds keep
    the sign of the time, so together they read a full minute too early. *)
Theorem displayTimeLeft_negative (w : World) (seconds : Z) :
  seconds < 0 → ¬ (60 | seconds) →
  ∃ m r,
    elTimerTimeLeft (Game.displayTimeLeft seconds true w) = Clock m true r ∧
    m * 60 + r = seconds - 60 ∧ m < 0 ∧ -60 < r < 0.
Proof.
  intros Hs Hnd. exists (seconds / 60), (Z.rem seconds 60).
  unfold Game.displayTimeLeft, Js.rem, Js.floor_div. simpl.
  pose proof (Z.div_mod seconds 60 ltac:(lia)) as Hdm.
  pose proof (Z.mod_pos_bound seconds 60 ltac:(lia)) as Hmb.
  pose proof (Z.quot_rem' seconds 60) as Hqr.
  pose proof (Z.rem_bound_pos_neg seconds 60 ltac:(lia) ltac:(lia)) as Hrb.
  assert (Hr0 : Z.rem seconds 60 ≠ 0).
  { intros H0. apply Hnd. apply Z.rem_divide; [lia | done]. }
  assert (Hlt : (Z.rem seconds 60 <? 10) = true) by (apply Z.ltb_lt; lia).
  rewrite Hlt. repeat split; lia.
Qed.

Lemma displayTimeLeft_negative_witness :
  ∃ m r,
    elTimerTimeLeft (Game.displayTimeLeft (-1) true sample_won)
      = Clock m true r ∧
    m * 60 + r = -1 - 60.
Proof.
  destruct (displayTimeLeft_negative sample_won (-1)) as (m & r & H1 & H2 & _).
  - lia.
  - intros [x Hx]. lia.
  - exists m, r. exact (conj H1 H2).
Defined.

(** ** The outcome and the score *)

(** X14: in a session the score is always a number, never negative, and
    the message on the page always agrees with it: the round is in progress
    exactly while the score is below the target, won exactly when the score
    equals it, lost exactly when the score is above. *)
Theorem outcome_agrees_with_score (w : World) :
  reachable w →
  ∃ s,
    currentScore w = Js.Int s ∧ 0 <= s ∧
    (outcome w = InProgress ↔ s < targetNumber w) ∧
    (outcome w = Won ↔ s = targetNumber w) ∧
    (outcome w = Lost ↔ targetNumber w < s).
Proof.
  intros Hr. apply reachable_good in Hr as Hg.
  destruct (good_round w Hg) as (s & Hs & Hs0 & Hround).
  exists s. do 2 (split; [done |]).
  destruct (outcome w); repeat split; intros; (done || lia).
Qed.

Lemma outcome_agrees_with_score_witness :
  ∃ s,
    currentScore sample_lost = Js.Int s ∧ 0 <= s ∧
    (outcome sample_lost = InProgress ↔ s < targetNumber sample_lost).
Proof.
  destruct (outcome_agrees_with_score sample_lost) as (s & H1 & H2 & H3 & _).
  - exists sample_draws, [Click 0 1000; Click 0 2000], sample_round.
    split; [exact sample_draws_unit |]. split; vm_compute; reflexivity.
  - exists s. exact (conj H1 (conj H2 H3)).
Defined.

(** ** Clicks on what is no gem of the round *)

(** The tick that replaces the buttons leaves none of the old ones. *)
Lemma old_buttons_are_gone (w w' : World) (id t : Z) (el : element) :
  good w → tidy w → step w (Timer id t) = Some w' →
  elGemDisplay w' ≠ elGemDisplay w → el ∈ elGemDisplay w →
  el ∉ elGemDisplay w'.
Proof.
  intros Hg Ht. simpl. unfold fire, Game.restartGame_callback.
  destruct (intervals w !! id) as [then_|]; [| by intros [= <-]].
  destruct (Js.round_div1000 (then_ - t) <? 0); [| by intros [= <-]].
  destruct (Game.resetGame _) as [w1|] eqn:Hreset; [| done].
  intros [= <-] _ Hel Hel'.
  pose proof (tidy_nodes w Ht) as Hn. rewrite Forall_forall in Hn.
  apply Hn in Hel. rewrite resetGame_eq in Hreset.
  apply start_Some in Hreset as (vals & r & rest & _ & ->).
  simpl in Hel'. rewrite !elem_of_cons in Hel'.
  destruct Hel' as [->|[->|[->|[->|Hnil]]]]; simpl in Hel; try lia.
  by apply elem_of_nil in Hnil.
Qed.

(** C2: a click on what is no gem of the active round is ignored without
    any failure.  The handler is bound on [#gem-display] for its
    [.gem-button]s, so that in a session a click on any element that is not
    one of the buttons of the display runs nothing and leaves the state as
    it is, score, outcome and tallies included; so does a click at a place
    of the display where there is no button; and the buttons of a round are
    such elements from the moment the next round has replaced them. *)
Theorem click_on_no_gem_is_ignored (w : World) (now : Z) :
  reachable w →
  (∀ el, el ∉ elGemDisplay w →
     click el now w = w ∧
     currentScore (click el now w) = currentScore w ∧
     outcome (click el now w) = outcome w ∧
     numberOfWins (click el now w) = numberOfWins w ∧
     numberOfLosses (click el now w) = numberOfLosses w) ∧
  (∀ k, elGemDisplay w !! k = None → step w (Click k now) = Some w) ∧
  (∀ id t w' el,
     step w (Timer id t) = Some w' →
     elGemDisplay w' ≠ elGemDisplay w → el ∈ elGemDisplay w →
     click el now w' = w').
Proof.
  intros Hr. apply reachable_good in Hr as Hg.
  apply reachable_tidy in Hr as Ht.
  assert (Hno : ∀ (v : World) el, el ∉ elGemDisplay v → click el now v = v).
  { intros v el Hel. unfold click.
    by rewrite (bool_decide_eq_false_2 (el ∈ _)). }
  split; [| split].
  - intros el Hel. rewrite (Hno w el Hel). done.
  - intros k Hk. simpl. by rewrite Hk.
  - intros id t w' el Hstep Hne Hel. apply Hno.
    by eapply old_buttons_are_gone.
Qed.

Lemma click_on_no_gem_is_ignored_witness :
  click sample_heading 9000 sample_won = sample_won ∧
  click sample_gem7 9000 sample_second = sample_second.
Proof.
  destruct (click_on_no_gem_is_ignored sample_won 9000) as (Hno & _ & Hold).
  - exact sample_won_reachable.
  - split.
    + apply Hno. refute_by_computation.
    + apply (Hold 1 8000 sample_second sample_gem7).
      * vm_compute. reflexivity.
      * vm_compute. discriminate.
      * apply list_elem_of_lookup. exists 1%nat. vm_compute. reflexivity.
Defined.
